(** * A shallow embedding of wqs' engine/queue/queue_imp.go

    The queue service [queueImp] orchestrates two stores that are not
    transactionally linked: the Kafka topic registry (the Broker Registry,
    [kafka.Manager]) and the ZooKeeper metadata tree (the Extended Metadata
    Store, [kafka.ExtendManager]).  It also produces messages, caches one
    consumer per ["queue@group"] key and feeds a metrics monitor.

    Every external call is an explicit primitive of a state/error monad: it
    is appended to a call trace, it fails when the world's fault oracle says
    so, and otherwise it acts on the store.  [errors.Trace] keeps the kind of
    the error it wraps, so it is the monad's error propagation. *)

From Stdlib Require Import String Ascii List ZArith Bool Lia.
Import ListNotations.
Open Scope string_scope.
Open Scope list_scope.

Module Wqs.

(** ** Errors and results (juju/errors kinds used by the file) *)

Inductive Err :=
| ErrInvalidArgument   (* errors.NotValidf *)
| ErrAlreadyExists     (* errors.AlreadyExistsf *)
| ErrNotFound          (* errors.NotFoundf *)
| ErrNotImplemented    (* errors.NotImplementedf *)
| ErrUpstream.         (* an error returned by a collaborator *)

Inductive Result (A : Type) :=
| Ok (a : A)
| Fail (e : Err).
Arguments Ok {A} a.
Arguments Fail {A} e.

Definition payload := list Byte.byte.

(** ** Data model: config.Config and model.* *)

Record Config := mkConfig {
  KafkaBrokerAddr : string;
  KafkaZKAddr : string;
  KafkaReplications : Z;
  KafkaPartitions : Z
}.

(** model.GroupConfig; an omitted field of a Go struct literal is the zero
    value, here [""]. *)
Record GroupConfig := mkGroupConfig {
  gc_Group : string;
  gc_Queue : string;
  gc_Write : bool;
  gc_Read : bool;
  gc_Url : string;
  gc_Ips : list string
}.

(** model.QueueInfo *)
Record QueueInfo := mkQueueInfo {
  qi_Queue : string;
  qi_Ctime : Z;
  qi_Length : Z;
  qi_Groups : list GroupConfig
}.

(** model.GroupInfo *)
Record GroupInfo := mkGroupInfo {
  gi_Group : string;
  gi_Queues : list GroupConfig
}.

(** A *kafka.Consumer: its identity, the queue and group it reads. *)
Record Consumer := mkConsumer {
  c_id : nat;
  c_queue : string;
  c_group : string
}.

(** ** The external calls, with their arguments *)

Inductive Call :=
| CExistTopic (queue : string) (refresh : bool)
| CCreateTopic (queue : string) (replications partitions : Z) (zk : string)
| CDeleteTopic (queue : string) (zk : string)
| CExistQueue (queue : string)
| CAddQueue (queue : string)
| CDelQueue (queue : string)
| CQueueCreateTime (queue : string)
| CGetQueueMap
| CGetGroupMap
| CGetGroupConfig (group queue : string)
| CAddGroupConfig (group queue : string) (write read : bool) (url : string) (ips : list string)
| CUpdateGroupConfig (group queue : string) (write read : bool) (url : string) (ips : list string)
| CDeleteGroupConfig (group queue : string)
| CProduce (queue : string) (data : payload)
| CNewConsumer (addrs : list string) (queue group : string)
| CRecv (consumer : nat)
| CStatisticSend (queue group : string) (n : nat)
| CStatisticReceive (queue group : string) (n : nat)
| CGetSendMetrics (queue group : string) (start end_ intervalnum : Z)
| CGetReceiveMetrics (queue group : string) (start end_ intervalnum : Z).

(** ** The stores *)

(** Modelled from the spec: the Broker Registry client (engine/kafka
    Manager, not part of the sources).  [ExistTopic(name, forceRefresh)]
    answers from the authoritative topic set when [forceRefresh] holds and
    from the client's cached view otherwise; the cached view is refreshed
    outside the calls modelled here. *)
Record Registry := mkRegistry {
  topics : list string;
  cached : list string
}.

(** Modelled from the spec: the Extended Metadata Store (engine/kafka
    ExtendManager, not part of the sources): queues with their creation
    time, and group records keyed by (group, queue).  The queue->groups and
    group->queues indexes are read off these records. *)
Record Meta := mkMeta {
  m_queues : list (string * Z);
  m_groups : list GroupConfig;
  m_clock : Z
}.

(** Modelled from the spec: the Message Transport (engine/kafka Producer
    and Consumer): one log per queue, a read offset per consumer, and the
    number of consumers constructed so far. *)
Record Transport := mkTransport {
  logs : string -> list payload;
  offsets : nat -> nat;
  n_consumers : nat
}.

(** Modelled from the spec: the Metrics Recorder (metrics.Monitor): send
    and receive counters per (queue, group). *)
Record Stats := mkStats {
  send_count : string -> string -> nat;
  recv_count : string -> string -> nat
}.

(** The queueImp value and what it reaches. *)
Record Store := mkStore {
  s_conf : Config;
  s_reg : Registry;
  s_meta : Meta;
  s_trans : Transport;
  s_stats : Stats;
  s_consumerMap : list (string * Consumer)
}.

Record World := mkWorld {
  w_store : Store;
  w_faulty : Call -> bool;
  w_trace : list Call
}.

Definition set_reg (r : Registry) (s : Store) : Store :=
  mkStore (s_conf s) r (s_meta s) (s_trans s) (s_stats s) (s_consumerMap s).
Definition set_meta (m : Meta) (s : Store) : Store :=
  mkStore (s_conf s) (s_reg s) m (s_trans s) (s_stats s) (s_consumerMap s).
Definition set_trans (t : Transport) (s : Store) : Store :=
  mkStore (s_conf s) (s_reg s) (s_meta s) t (s_stats s) (s_consumerMap s).
Definition set_stats (x : Stats) (s : Store) : Store :=
  mkStore (s_conf s) (s_reg s) (s_meta s) (s_trans s) x (s_consumerMap s).
Definition set_consumerMap (cm : list (string * Consumer)) (s : Store) : Store :=
  mkStore (s_conf s) (s_reg s) (s_meta s) (s_trans s) (s_stats s) cm.

(** ** The state/error monad *)

Definition M (A : Type) := World -> Result A * World.

Definition ret {A} (a : A) : M A := fun w => (Ok a, w).
Definition throw {A} (e : Err) : M A := fun w => (Fail e, w).
Definition bind {A B} (m : M A) (k : A -> M B) : M B :=
  fun w => match m w with
           | (Ok a, w') => k a w'
           | (Fail e, w') => (Fail e, w')
           end.

Notation "x <- m ;; k" := (bind m (fun x => k))
  (at level 61, m at next level, right associativity).

(** An error value built and dropped, as an unused [errors.NotValidf(...)]. *)
Definition discard {A} (_ : Result A) : M unit := ret tt.

(** The queueImp's own fields, read and written without a collaborator. *)
Definition get_store : M Store := fun w => (Ok (w_store w), w).
Definition put_store (s : Store) : M unit :=
  fun w => (Ok tt, mkWorld s (w_faulty w) (w_trace w)).

(** An external call: logged, failing when the oracle says so, otherwise
    acting on the store. *)
Definition ext {A} (c : Call) (eff : Store -> Result A * Store) : M A :=
  fun w =>
    let tr := w_trace w ++ [c] in
    if w_faulty w c then (Fail ErrUpstream, mkWorld (w_store w) (w_faulty w) tr)
    else let (r, s') := eff (w_store w) in (r, mkWorld s' (w_faulty w) tr).

(** A logged call that returns nothing to check (metrics.Monitor's
    StatisticSend / StatisticReceive have no error result). *)
Definition emit (c : Call) (eff : Store -> Store) : M unit :=
  fun w => (Ok tt, mkWorld (eff (w_store w)) (w_faulty w) (w_trace w ++ [c])).

(** ** Helpers on association lists and strings *)

Definition mem (x : string) (l : list string) : bool := existsb (String.eqb x) l.

Fixpoint assoc {A} (k : string) (l : list (string * A)) : option A :=
  match l with
  | [] => None
  | (k', v) :: l' => if String.eqb k k' then Some v else assoc k l'
  end.

(** Go map assignment [m[k] = v]. *)
Fixpoint assoc_set {A} (k : string) (v : A) (l : list (string * A)) : list (string * A) :=
  match l with
  | [] => [(k, v)]
  | (k', v') :: l' => if String.eqb k k' then (k, v) :: l' else (k', v') :: assoc_set k v l'
  end.

Definition assoc_del {A} (k : string) (l : list (string * A)) : list (string * A) :=
  filter (fun p => negb (String.eqb k (fst p))) l.

(** strings.Split(s, sep) for a one-character separator. *)
Fixpoint split_on (sep : ascii) (s : string) : list string :=
  match s with
  | EmptyString => [""]
  | String c rest =>
      if Ascii.eqb c sep then "" :: split_on sep rest
      else match split_on sep rest with
           | [] => [String c ""]
           | h :: t => String c h :: t
           end
  end.

Definition is_key (group queue : string) (c : GroupConfig) : bool :=
  String.eqb (gc_Group c) group && String.eqb (gc_Queue c) queue.

Fixpoint nub (l : list string) : list string :=
  match l with
  | [] => []
  | x :: l' => x :: filter (fun y => negb (String.eqb x y)) (nub l')
  end.

(** ** Collaborator calls *)

Definition bump (f : string -> string -> nat) (queue group : string) (n : nat)
  : string -> string -> nat :=
  fun q g => if String.eqb q queue && String.eqb g group then f q g + n else f q g.

(** kafka.Manager *)
Definition ExistTopic (queue : string) (refresh : bool) : M bool :=
  ext (CExistTopic queue refresh) (fun s =>
    let r := s_reg s in
    (Ok (mem queue (if refresh then topics r else cached r)), s)).

Definition CreateTopic (queue : string) (replications partitions : Z) (zk : string) : M unit :=
  ext (CCreateTopic queue replications partitions zk) (fun s =>
    let r := s_reg s in
    let ts := if mem queue (topics r) then topics r else topics r ++ [queue] in
    (Ok tt, set_reg (mkRegistry ts (cached r)) s)).

Definition DeleteTopic (queue : string) (zk : string) : M unit :=
  ext (CDeleteTopic queue zk) (fun s =>
    let r := s_reg s in
    (Ok tt, set_reg (mkRegistry (filter (fun t => negb (String.eqb queue t)) (topics r)) (cached r)) s)).

(** kafka.ExtendManager *)
Definition groups_of (queue : string) (gs : list GroupConfig) : list string :=
  map gc_Group (filter (fun c => String.eqb (gc_Queue c) queue) gs).

Definition queues_of (group : string) (gs : list GroupConfig) : list string :=
  map gc_Queue (filter (fun c => String.eqb (gc_Group c) group) gs).

Definition ExistQueue (queue : string) : M bool :=
  ext (CExistQueue queue) (fun s => (Ok (mem queue (map fst (m_queues (s_meta s)))), s)).

Definition AddQueue (queue : string) : M unit :=
  ext (CAddQueue queue) (fun s =>
    let m := s_meta s in
    (Ok tt, set_meta (mkMeta (assoc_set queue (m_clock m) (m_queues m)) (m_groups m) (m_clock m)) s)).

Definition DelQueue (queue : string) : M unit :=
  ext (CDelQueue queue) (fun s =>
    let m := s_meta s in
    (Ok tt, set_meta (mkMeta (assoc_del queue (m_queues m))
                             (filter (fun c => negb (String.eqb (gc_Queue c) queue)) (m_groups m))
                             (m_clock m)) s)).

Definition QueueCreateTime (queue : string) : M Z :=
  ext (CQueueCreateTime queue) (fun s =>
    match assoc queue (m_queues (s_meta s)) with
    | Some t => (Ok t, s)
    | None => (Fail ErrUpstream, s)
    end).

Definition GetQueueMap : M (list (string * list string)) :=
  ext CGetQueueMap (fun s =>
    let m := s_meta s in
    (Ok (map (fun p => (fst p, groups_of (fst p) (m_groups m))) (m_queues m)), s)).

Definition GetGroupMap : M (list (string * list string)) :=
  ext CGetGroupMap (fun s =>
    let gs := m_groups (s_meta s) in
    (Ok (map (fun g => (g, queues_of g gs)) (nub (map gc_Group gs))), s)).

Definition GetGroupConfig (group queue : string) : M (option GroupConfig) :=
  ext (CGetGroupConfig group queue) (fun s => (Ok (find (is_key group queue) (m_groups (s_meta s))), s)).

Definition upsert_group (group queue : string) (write read : bool) (url : string)
    (ips : list string) (s : Store) : Store :=
  let m := s_meta s in
  set_meta (mkMeta (m_queues m)
                   (filter (fun c => negb (is_key group queue c)) (m_groups m)
                      ++ [mkGroupConfig group queue write read url ips])
                   (m_clock m)) s.

Definition AddGroupConfig (group queue : string) (write read : bool) (url : string)
    (ips : list string) : M unit :=
  ext (CAddGroupConfig group queue write read url ips)
      (fun s => (Ok tt, upsert_group group queue write read url ips s)).

Definition UpdateGroupConfig (group queue : string) (write read : bool) (url : string)
    (ips : list string) : M unit :=
  ext (CUpdateGroupConfig group queue write read url ips)
      (fun s => (Ok tt, upsert_group group queue write read url ips s)).

Definition DeleteGroupConfig (group queue : string) : M unit :=
  ext (CDeleteGroupConfig group queue) (fun s =>
    let m := s_meta s in
    (Ok tt, set_meta (mkMeta (m_queues m)
                             (filter (fun c => negb (is_key group queue c)) (m_groups m))
                             (m_clock m)) s)).

(** kafka.Producer and kafka.Consumer *)
Definition Produce (queue : string) (data : payload) : M unit :=
  ext (CProduce queue data) (fun s =>
    let t := s_trans s in
    let lg := fun q => if String.eqb q queue then logs t q ++ [data] else logs t q in
    (Ok tt, set_trans (mkTransport lg (offsets t) (n_consumers t)) s)).

Definition NewConsumer (addrs : list string) (queue group : string) : M Consumer :=
  ext (CNewConsumer addrs queue group) (fun s =>
    let t := s_trans s in
    let id := n_consumers t in
    let off := fun i => if Nat.eqb i id then 0 else offsets t i in
    (Ok (mkConsumer id queue group), set_trans (mkTransport (logs t) off (S id)) s)).

(** [consumer.Recv()] blocks until a message is there; an exhausted log is
    reported as a transport error. *)
Definition Recv (c : Consumer) : M payload :=
  ext (CRecv (c_id c)) (fun s =>
    let t := s_trans s in
    match nth_error (logs t (c_queue c)) (offsets t (c_id c)) with
    | Some d =>
        let off := fun i => if Nat.eqb i (c_id c) then S (offsets t i) else offsets t i in
        (Ok d, set_trans (mkTransport (logs t) off (n_consumers t)) s)
    | None => (Fail ErrUpstream, s)
    end).

(** metrics.Monitor; a metrics object is the counter the query reads. *)
Definition MetricsObj := nat.

Definition StatisticSend (queue group : string) (n : nat) : M unit :=
  emit (CStatisticSend queue group n) (fun s =>
    let x := s_stats s in set_stats (mkStats (bump (send_count x) queue group n) (recv_count x)) s).

Definition StatisticReceive (queue group : string) (n : nat) : M unit :=
  emit (CStatisticReceive queue group n) (fun s =>
    let x := s_stats s in set_stats (mkStats (send_count x) (bump (recv_count x) queue group n)) s).

Definition MonitorGetSendMetrics (queue group : string) (start end_ intervalnum : Z) : M MetricsObj :=
  ext (CGetSendMetrics queue group start end_ intervalnum)
      (fun s => (Ok (send_count (s_stats s) queue group), s)).

Definition MonitorGetReceiveMetrics (queue group : string) (start end_ intervalnum : Z) : M MetricsObj :=
  ext (CGetReceiveMetrics queue group start end_ intervalnum)
      (fun s => (Ok (recv_count (s_stats s) queue group), s)).

(** ** queueImp's methods *)

(** [if len(queue) == 0 { errors.NotValidf(...) }]: the error is built and
    not returned. *)
Definition check_name (queue : string) : M unit :=
  if Nat.eqb (String.length queue) 0 then discard (@Fail unit ErrInvalidArgument) else ret tt.

Definition check_names (group queue : string) : M unit :=
  if Nat.eqb (String.length group) 0 || Nat.eqb (String.length queue) 0
  then discard (@Fail unit ErrInvalidArgument) else ret tt.

Definition Create (queue : string) : M unit :=
  _ <- check_name queue ;;
  exist <- ExistTopic queue true ;;
  if exist then throw ErrAlreadyExists else
  exist <- ExistQueue queue ;;
  if exist then throw ErrAlreadyExists else
  _ <- AddQueue queue ;;
  s <- get_store ;;
  CreateTopic queue (KafkaReplications (s_conf s)) (KafkaPartitions (s_conf s)) (KafkaZKAddr (s_conf s)).

Definition Update (queue : string) : M unit :=
  _ <- check_name queue ;;
  exist <- ExistTopic queue true ;;
  if negb exist then throw ErrNotFound else
  ret tt.

Definition Delete (queue : string) : M unit :=
  _ <- check_name queue ;;
  exist <- ExistTopic queue true ;;
  if negb exist then throw ErrNotFound else
  exist <- ExistQueue queue ;;
  if negb exist then throw ErrNotFound else
  _ <- DelQueue queue ;;
  s <- get_store ;;
  DeleteTopic queue (KafkaZKAddr (s_conf s)).

(** The config a Lookup returns: [Group] and the ACL fields of the stored
    record, [Queue] left to its zero value. *)
Definition lookup_config (config : GroupConfig) : GroupConfig :=
  {| gc_Group := gc_Group config; gc_Queue := "";
     gc_Write := gc_Write config; gc_Read := gc_Read config;
     gc_Url := gc_Url config; gc_Ips := gc_Ips config |}.

(** The config a LookupGroup returns: [Queue] and the ACL fields, [Group]
    left to its zero value. *)
Definition lookupgroup_config (config : GroupConfig) : GroupConfig :=
  {| gc_Group := ""; gc_Queue := gc_Queue config;
     gc_Write := gc_Write config; gc_Read := gc_Read config;
     gc_Url := gc_Url config; gc_Ips := gc_Ips config |}.

(** [for _, groupName := range groupNames { ... groupConfigs = append(...) }]
    in Lookup; a nil config is only logged. *)
Fixpoint lookup_groups (queueName : string) (groupNames : list string)
    (groupConfigs : list GroupConfig) : M (list GroupConfig) :=
  match groupNames with
  | [] => ret groupConfigs
  | groupName :: rest =>
      config <- GetGroupConfig groupName queueName ;;
      match config with
      | Some config => lookup_groups queueName rest (groupConfigs ++ [lookup_config config])
      | None => lookup_groups queueName rest groupConfigs
      end
  end.

(** [for queueName, groupNames := range queueMap { ... }] in Lookup: the
    slice [groupConfigs] is declared once, before the loop, and every
    QueueInfo takes the slice as it is at that iteration. *)
Fixpoint lookup_all (queueMap : list (string * list string))
    (queueInfos : list QueueInfo) (groupConfigs : list GroupConfig) : M (list QueueInfo) :=
  match queueMap with
  | [] => ret queueInfos
  | (queueName, groupNames) :: rest =>
      groupConfigs <- lookup_groups queueName groupNames groupConfigs ;;
      ctime <- QueueCreateTime queueName ;;
      lookup_all rest (queueInfos ++ [mkQueueInfo queueName ctime 0 groupConfigs]) groupConfigs
  end.

Definition Lookup (queue group : string) : M (list QueueInfo) :=
  if String.eqb queue "" then
    queueMap <- GetQueueMap ;;
    lookup_all queueMap [] []
  else if String.eqb group "" then
    queueMap <- GetQueueMap ;;
    match assoc queue queueMap with
    | None => ret []
    | Some groupNames =>
        groupConfigs <- lookup_groups queue groupNames [] ;;
        ctime <- QueueCreateTime queue ;;
        ret [mkQueueInfo queue ctime 0 groupConfigs]
    end
  else
    config <- GetGroupConfig group queue ;;
    let groupConfigs := match config with
                        | Some config => [lookup_config config]
                        | None => []
                        end in
    ctime <- QueueCreateTime queue ;;
    ret [mkQueueInfo queue ctime 0 groupConfigs].

Definition AddGroup (group queue : string) (write read : bool) (url : string)
    (ips : list string) : M unit :=
  _ <- check_names group queue ;;
  exist <- ExistTopic queue true ;;
  if negb exist then throw ErrNotFound else
  AddGroupConfig group queue write read url ips.

Definition UpdateGroup (group queue : string) (write read : bool) (url : string)
    (ips : list string) : M unit :=
  _ <- check_names group queue ;;
  exist <- ExistTopic queue true ;;
  if negb exist then throw ErrNotFound else
  UpdateGroupConfig group queue write read url ips.

Definition DeleteGroup (group queue : string) : M unit :=
  _ <- check_names group queue ;;
  exist <- ExistTopic queue true ;;
  if negb exist then throw ErrNotFound else
  DeleteGroupConfig group queue.

(** The loops of LookupGroup, with the same shared [groupConfigs]. *)
Fixpoint lookupgroup_queues (groupName : string) (queueNames : list string)
    (groupConfigs : list GroupConfig) : M (list GroupConfig) :=
  match queueNames with
  | [] => ret groupConfigs
  | queueName :: rest =>
      config <- GetGroupConfig groupName queueName ;;
      match config with
      | Some config => lookupgroup_queues groupName rest (groupConfigs ++ [lookupgroup_config config])
      | None => lookupgroup_queues groupName rest groupConfigs
      end
  end.

Fixpoint lookupgroup_all (groupMap : list (string * list string))
    (groupInfos : list GroupInfo) (groupConfigs : list GroupConfig) : M (list GroupInfo) :=
  match groupMap with
  | [] => ret groupInfos
  | (groupName, queueNames) :: rest =>
      groupConfigs <- lookupgroup_queues groupName queueNames groupConfigs ;;
      lookupgroup_all rest (groupInfos ++ [mkGroupInfo groupName groupConfigs]) groupConfigs
  end.

Definition LookupGroup (group : string) : M (list GroupInfo) :=
  if String.eqb group "" then
    groupMap <- GetGroupMap ;;
    lookupgroup_all groupMap [] []
  else
    groupMap <- GetGroupMap ;;
    match assoc group groupMap with
    | None => ret []
    | Some queueNames =>
        groupConfigs <- lookupgroup_queues group queueNames [] ;;
        ret [mkGroupInfo group groupConfigs]
    end.

Definition GetSingleGroup (group queue : string) : M (option GroupConfig) :=
  exist <- ExistTopic queue true ;;
  if negb exist then throw ErrNotFound else
  GetGroupConfig group queue.

Definition SendMsg (queue group : string) (data : payload) : M unit :=
  exist <- ExistTopic queue false ;;
  if negb exist then throw ErrNotFound else
  _ <- Produce queue data ;;
  _ <- StatisticSend queue group 1 ;;
  ret tt.

(** The lookup-or-create step runs under [q.mu]; the calls are sequential
    here, so the lock has no counterpart. *)
Definition ReceiveMsg (queue group : string) : M payload :=
  exist <- ExistTopic queue false ;;
  if negb exist then throw ErrNotFound else
  let id := (queue ++ "@" ++ group)%string in
  s <- get_store ;;
  consumer <- (match assoc id (s_consumerMap s) with
               | Some consumer => ret consumer
               | None =>
                   consumer <- NewConsumer (split_on ","%char (KafkaBrokerAddr (s_conf s))) queue group ;;
                   s <- get_store ;;
                   _ <- put_store (set_consumerMap (assoc_set id consumer (s_consumerMap s)) s) ;;
                   ret consumer
               end) ;;
  data <- Recv consumer ;;
  _ <- StatisticReceive queue group 1 ;;
  ret data.

Definition AckMsg (queue group : string) : M unit := throw ErrNotImplemented.

Definition GetSendMetrics (queue group : string) (start end_ intervalnum : Z) : M MetricsObj :=
  exist <- ExistTopic queue true ;;
  if negb exist then throw ErrNotFound else
  MonitorGetSendMetrics queue group start end_ intervalnum.

Definition GetReceiveMetrics (queue group : string) (start end_ intervalnum : Z) : M MetricsObj :=
  exist <- ExistTopic queue true ;;
  if negb exist then throw ErrNotFound else
  MonitorGetReceiveMetrics queue group start end_ intervalnum.

(** ** Concrete worlds *)

Definition conf0 : Config := mkConfig "b1,b2" "zk1" 2 8.

Definition no_faults : Call -> bool := fun _ => false.

Definition empty_store : Store :=
  mkStore conf0 (mkRegistry [] []) (mkMeta [] [] 100)
          (mkTransport (fun _ => []) (fun _ => 0) 0)
          (mkStats (fun _ _ => 0) (fun _ _ => 0)) [].

Definition empty_world : World := mkWorld empty_store no_faults [].

Definition cfg (group queue : string) : GroupConfig :=
  mkGroupConfig group queue true false "http://cb" ["10.0.0.1"].

(** Two consistent queues q1 and q2, with groups g1@q1 and g2@q2. *)
Definition two_queues_world : World :=
  mkWorld (mkStore conf0 (mkRegistry ["q1"; "q2"] ["q1"; "q2"])
                   (mkMeta [("q1", 10%Z); ("q2", 20%Z)] [cfg "g1" "q1"; cfg "g2" "q2"] 100)
                   (mkTransport (fun _ => []) (fun _ => 0) 0)
                   (mkStats (fun _ _ => 0) (fun _ _ => 0)) [])
          no_faults [].

(** q1 is in the registry's cached view but not in its authoritative set. *)
Definition stale_world : World :=
  mkWorld (mkStore conf0 (mkRegistry [] ["q1"]) (mkMeta [("q1", 10%Z)] [] 100)
                   (mkTransport (fun _ => []) (fun _ => 0) 0)
                   (mkStats (fun _ _ => 0) (fun _ _ => 0)) [])
          no_faults [].


(** ** Observations on the call trace *)

(** The first collaborator call an operation makes from world [w]. *)
Definition first_call {A} (m : M A) (w : World) : option Call :=
  nth_error (w_trace (snd (m w))) (length (w_trace w)).

(** An operation only appends to the trace. *)
Definition extends {A} (m : M A) : Prop :=
  forall w, exists l, w_trace (snd (m w)) = w_trace w ++ l.





(** The same world with another set of group records. *)
Definition with_groups (gs : list GroupConfig) (w : World) : World :=
  let m := s_meta (w_store w) in
  mkWorld (set_meta (mkMeta (m_queues m) gs (m_clock m)) (w_store w)) (w_faulty w) (w_trace w).

(** [n] calls of the same operation, each from the world the previous one
    left. *)
Fixpoint run_n {A} (n : nat) (m : M A) (w : World) : World :=
  match n with
  | O => w
  | S n' => run_n n' m (snd (m w))
  end.

Definition session_key (queue group : string) : string := (queue ++ "@" ++ group)%string.

(** An operation that writes to no store. *)
Definition readonly {A} (m : M A) : Prop :=
  forall w, w_store (snd (m w)) = w_store w.

(** The (group, queue) key of a group record. *)
Definition group_key (c : GroupConfig) : string * string := (gc_Group c, gc_Queue c).

(** At most one group record per (group, queue). *)
Definition keys_unique (st : Store) : Prop :=
  NoDup (map group_key (m_groups (s_meta st))).

(** Occurrences of a name in a list of names. *)
Definition count_name (x : string) (l : list string) : nat :=
  length (filter (String.eqb x) l).

(** ** Lemmas on the monad *)

Lemma extends_ret {A} (a : A) : extends (ret a).
Proof. intro w. exists []. simpl. now rewrite app_nil_r. Qed.

Lemma extends_throw {A} (e : Err) : extends (@throw A e).
Proof. intro w. exists []. simpl. now rewrite app_nil_r. Qed.

Lemma extends_get_store : extends get_store.
Proof. intro w. exists []. simpl. now rewrite app_nil_r. Qed.

Lemma extends_put_store s : extends (put_store s).
Proof. intro w. exists []. simpl. now rewrite app_nil_r. Qed.

Lemma extends_ext {A} c (eff : Store -> Result A * Store) : extends (ext c eff).
Proof.
  intro w. exists [c]. unfold ext.
  destruct (w_faulty w c); [reflexivity|]. now destruct (eff (w_store w)).
Qed.

Lemma extends_emit c eff : extends (emit c eff).
Proof. intro w. now exists [c]. Qed.

Lemma extends_bind {A B} (m : M A) (k : A -> M B) :
  extends m -> (forall a, extends (k a)) -> extends (bind m k).
Proof.
  intros Hm Hk w. unfold bind. destruct (Hm w) as [l1 E1].
  destruct (m w) as [[a|e] w1] eqn:Ew; simpl in E1.
  - destruct (Hk a w1) as [l2 E2]. exists (l1 ++ l2). now rewrite E2, E1, app_assoc.
  - exists l1. exact E1.
Qed.

Lemma first_call_bind_ext {A B} c (eff : Store -> Result A * Store) (k : A -> M B) w :
  (forall a, extends (k a)) -> first_call (bind (ext c eff) k) w = Some c.
Proof.
  intros Hk. unfold first_call, bind, ext.
  destruct (w_faulty w c).
  - simpl. rewrite nth_error_app2 by lia. now rewrite Nat.sub_diag.
  - destruct (eff (w_store w)) as [[a|e] s'].
    + destruct (Hk a (mkWorld s' (w_faulty w) (w_trace w ++ [c]))) as [l E].
      rewrite E. simpl. rewrite <- app_assoc, nth_error_app2 by lia.
      now rewrite Nat.sub_diag.
    + simpl. rewrite nth_error_app2 by lia. now rewrite Nat.sub_diag.
Qed.

Lemma check_name_ret q : check_name q = ret tt.
Proof. unfold check_name. now destruct (Nat.eqb _ _). Qed.

Lemma check_names_ret g q : check_names g q = ret tt.
Proof. unfold check_names. now destruct (_ || _). Qed.

Create HintDb wqs_extends.
#[local] Hint Resolve extends_ret extends_throw extends_get_store extends_put_store
  extends_ext extends_emit : wqs_extends.

(** Proves [extends] of an operation built from the primitives. *)
Ltac solve_extends :=
  repeat (intros;
    match goal with
    | |- extends (bind _ _) => apply extends_bind
    | |- extends (if ?b then _ else _) => destruct b
    | |- extends (match ?x with _ => _ end) => destruct x
    | |- extends _ => solve [eauto with wqs_extends]
    | |- extends _ =>
        unfold ExistTopic, CreateTopic, DeleteTopic, ExistQueue, AddQueue, DelQueue,
          QueueCreateTime, GetQueueMap, GetGroupMap, GetGroupConfig, AddGroupConfig,
          UpdateGroupConfig, DeleteGroupConfig, Produce, NewConsumer, Recv,
          StatisticSend, StatisticReceive, MonitorGetSendMetrics, MonitorGetReceiveMetrics
    end).

Lemma first_call_bind_ret {A B} (a : A) (k : A -> M B) w :
  first_call (bind (ret a) k) w = first_call (k a) w.
Proof. reflexivity. Qed.

(** The first call of an operation that starts with [ExistTopic]. *)
Ltac first_exist_topic :=
  first [rewrite check_name_ret | rewrite check_names_ret | idtac];
  rewrite ?first_call_bind_ret;
  unfold ExistTopic; apply first_call_bind_ext; solve_extends.

(** ** Lemmas on the stores *)

Lemma mem_app_last q l : mem q (l ++ [q]) = true.
Proof. unfold mem. rewrite existsb_app. simpl. rewrite String.eqb_refl. apply orb_true_r. Qed.

Lemma mem_assoc_set {A} q (v : A) l : mem q (map fst (assoc_set q v l)) = true.
Proof.
  induction l as [|[k x] l IH]; simpl.
  - now rewrite String.eqb_refl.
  - destruct (String.eqb q k) eqn:E; simpl.
    + now rewrite String.eqb_refl.
    + rewrite E. exact IH.
Qed.

Lemma mem_filter_neq q l : mem q (filter (fun t => negb (String.eqb q t)) l) = false.
Proof.
  induction l as [|t l IH]; simpl; [reflexivity|].
  destruct (String.eqb q t) eqn:E; simpl; [exact IH|]. now rewrite E.
Qed.

Lemma mem_assoc_del {A} q (l : list (string * A)) : mem q (map fst (assoc_del q l)) = false.
Proof.
  induction l as [|[k x] l IH]; simpl; [reflexivity|].
  unfold assoc_del in *. simpl.
  destruct (String.eqb q k) eqn:E; simpl; [exact IH|]. now rewrite E.
Qed.

Ltac unfold_ops :=
  unfold Create, Update, Delete, AddGroup, UpdateGroup, DeleteGroup, GetSingleGroup,
    SendMsg, ReceiveMsg, GetSendMetrics, GetReceiveMetrics,
    ExistTopic, CreateTopic, DeleteTopic, ExistQueue, AddQueue, DelQueue,
    QueueCreateTime, GetQueueMap, GetGroupMap, GetGroupConfig, AddGroupConfig,
    UpdateGroupConfig, DeleteGroupConfig, Produce, NewConsumer, Recv,
    StatisticSend, StatisticReceive, MonitorGetSendMetrics, MonitorGetReceiveMetrics,
    get_store, put_store, bind, ext, emit, ret, throw;
  rewrite ?check_name_ret, ?check_names_ret.

(** Splits on every boolean test left in the goal. *)
Ltac case_ifs :=
  repeat (simpl in *; match goal with
    | H : Ok _ = Fail _ |- _ => discriminate H
    | H : Fail _ = Ok _ |- _ => discriminate H
    | |- context [if ?b then _ else _] => destruct b eqn:?
    end).

Lemma create_ok_stores q w :
  fst (Create q w) = Ok tt ->
  mem q (topics (s_reg (w_store (snd (Create q w))))) = true /\
  mem q (map fst (m_queues (s_meta (w_store (snd (Create q w)))))) = true /\
  w_faulty (snd (Create q w)) = w_faulty w.
Proof.
  destruct w as [s f tr]. unfold_ops. intro H. case_ifs;
    repeat split; auto; first [apply mem_assoc_set | apply mem_app_last].
Qed.

Lemma delete_faulty q w : w_faulty (snd (Delete q w)) = w_faulty w.
Proof. destruct w as [s f tr]. unfold_ops. case_ifs; reflexivity. Qed.

Ltac case_all :=
  repeat (simpl in *; match goal with
    | H : Ok _ = Fail _ |- _ => discriminate H
    | H : Fail _ = Ok _ |- _ => discriminate H
    | H : negb _ = true |- _ => apply negb_true_iff in H
    | H : negb _ = false |- _ => apply negb_false_iff in H
    | |- context [if ?b then _ else _] => destruct b eqn:?
    | |- context [match ?x with Some _ => _ | None => _ end] => destruct x eqn:?
    end).

Lemma assoc_assoc_set {A} k (v : A) l : assoc k (assoc_set k v l) = Some v.
Proof.
  induction l as [|[k' x] l IH]; simpl.
  - now rewrite String.eqb_refl.
  - destruct (String.eqb k k') eqn:E; simpl.
    + now rewrite String.eqb_refl.
    + rewrite E. exact IH.
Qed.

(** One ReceiveMsg either leaves the consumer cache and the constructed
    count alone, or caches a fresh consumer under an absent key. *)
Lemma receive_step q g w :
  let s := w_store w in
  let s' := w_store (snd (ReceiveMsg q g w)) in
  (s_consumerMap s' = s_consumerMap s /\ n_consumers (s_trans s') = n_consumers (s_trans s)) \/
  (assoc (session_key q g) (s_consumerMap s) = None /\
   s_consumerMap s' = assoc_set (session_key q g)
                        (mkConsumer (n_consumers (s_trans s)) q g) (s_consumerMap s) /\
   n_consumers (s_trans s') = S (n_consumers (s_trans s))).
Proof.
  destruct w as [s f tr]. unfold session_key. unfold_ops. case_all; auto.
Qed.

Lemma receive_cached q g w c :
  assoc (session_key q g) (s_consumerMap (w_store w)) = Some c ->
  s_consumerMap (w_store (snd (ReceiveMsg q g w))) = s_consumerMap (w_store w) /\
  n_consumers (s_trans (w_store (snd (ReceiveMsg q g w)))) = n_consumers (s_trans (w_store w)).
Proof.
  destruct w as [s f tr]. unfold session_key. simpl. intro H.
  unfold_ops. case_all; try congruence; auto.
Qed.

Lemma run_receive_cached q g m w c :
  assoc (session_key q g) (s_consumerMap (w_store w)) = Some c ->
  assoc (session_key q g) (s_consumerMap (w_store (run_n m (ReceiveMsg q g) w))) = Some c /\
  n_consumers (s_trans (w_store (run_n m (ReceiveMsg q g) w))) = n_consumers (s_trans (w_store w)).
Proof.
  revert w. induction m as [|m IH]; intros w H; simpl; [auto|].
  destruct (receive_cached q g w c H) as [E1 E2].
  destruct (IH (snd (ReceiveMsg q g w))) as [IH1 IH2]; [now rewrite E1|].
  split; [exact IH1|]. now rewrite IH2.
Qed.

Lemma run_receive_bound q g m w :
  n_consumers (s_trans (w_store (run_n m (ReceiveMsg q g) w))) <= S (n_consumers (s_trans (w_store w))).
Proof.
  revert w. induction m as [|m IH]; intros w; simpl; [lia|].
  destruct (receive_step q g w) as [[E1 E2]|[_ [E1 E2]]].
  - specialize (IH (snd (ReceiveMsg q g w))). rewrite E2 in IH. exact IH.
  - destruct (run_receive_cached q g m (snd (ReceiveMsg q g w))
                (mkConsumer (n_consumers (s_trans (w_store w))) q g)) as [_ E3].
    + rewrite E1. apply assoc_assoc_set.
    + rewrite E3, E2. lia.
Qed.

(** [c] is the view [sel] makes of a group record stored in [st]. *)
Definition stored_as (sel : GroupConfig -> GroupConfig) (st : Store) (c : GroupConfig) : Prop :=
  exists s0, In s0 (m_groups (s_meta st)) /\ c = sel s0.

Lemma get_group_config_step {B} group queue (k : option GroupConfig -> M B) w :
  bind (GetGroupConfig group queue) k w =
    if w_faulty w (CGetGroupConfig group queue)
    then (Fail ErrUpstream, mkWorld (w_store w) (w_faulty w) (w_trace w ++ [CGetGroupConfig group queue]))
    else k (find (is_key group queue) (m_groups (s_meta (w_store w))))
           (mkWorld (w_store w) (w_faulty w) (w_trace w ++ [CGetGroupConfig group queue])).
Proof. unfold bind, GetGroupConfig, ext. now destruct (w_faulty w _). Qed.

Lemma query_time_step queue (k : Z -> M (list QueueInfo)) w :
  (exists t w1, bind (QueueCreateTime queue) k w = k t w1 /\ w_store w1 = w_store w) \/
  (exists e w1, bind (QueueCreateTime queue) k w = (Fail e, w1)).
Proof.
  unfold bind, QueueCreateTime, ext. destruct (w_faulty w _); [right; eauto|].
  destruct (assoc queue _); [left|right]; eauto.
Qed.

Lemma lookup_groups_sound qn gns : forall acc w gcs w',
  lookup_groups qn gns acc w = (Ok gcs, w') ->
  w_store w' = w_store w /\
  forall c, In c gcs -> In c acc \/ stored_as lookup_config (w_store w) c.
Proof.
  induction gns as [|gn gns IH]; intros acc w gcs w' H; simpl in H.
  - inversion H; subst. auto.
  - rewrite get_group_config_step in H. destruct (w_faulty w _); [discriminate|].
    destruct (find (is_key gn qn) _) as [c0|] eqn:Ef;
      apply IH in H as [Hs Hc]; simpl in Hs; (split; [exact Hs|]); intros c Hin;
      destruct (Hc c Hin) as [Ha|Hp]; auto.
    apply in_app_or in Ha as [Ha|[<-|[]]]; auto.
    right. exists c0. split; [apply find_some in Ef; tauto|reflexivity].
Qed.

Lemma lookupgroup_queues_sound gn qns : forall acc w gcs w',
  lookupgroup_queues gn qns acc w = (Ok gcs, w') ->
  w_store w' = w_store w /\
  forall c, In c gcs -> In c acc \/ stored_as lookupgroup_config (w_store w) c.
Proof.
  induction qns as [|qn qns IH]; intros acc w gcs w' H; simpl in H.
  - inversion H; subst. auto.
  - rewrite get_group_config_step in H. destruct (w_faulty w _); [discriminate|].
    destruct (find (is_key gn qn) _) as [c0|] eqn:Ef;
      apply IH in H as [Hs Hc]; simpl in Hs; (split; [exact Hs|]); intros c Hin;
      destruct (Hc c Hin) as [Ha|Hp]; auto.
    apply in_app_or in Ha as [Ha|[<-|[]]]; auto.
    right. exists c0. split; [apply find_some in Ef; tauto|reflexivity].
Qed.

Lemma lookup_all_sound qm : forall infos acc w res w',
  lookup_all qm infos acc w = (Ok res, w') ->
  (forall i c, In i infos -> In c (qi_Groups i) -> stored_as lookup_config (w_store w) c) ->
  (forall c, In c acc -> stored_as lookup_config (w_store w) c) ->
  forall i c, In i res -> In c (qi_Groups i) -> stored_as lookup_config (w_store w) c.
Proof.
  induction qm as [|[qn gns] qm IH]; intros infos acc w res w' H Hi Ha; simpl in H.
  - inversion H; subst. exact Hi.
  - unfold bind at 1 in H.
    destruct (lookup_groups qn gns acc w) as [[gcs|e] w1] eqn:Eg; [|discriminate].
    destruct (lookup_groups_sound qn gns acc w gcs w1 Eg) as [Hs Hg].
    assert (Hgcs : forall c, In c gcs -> stored_as lookup_config (w_store w) c).
    { intros c Hin. destruct (Hg c Hin); auto. }
    destruct (query_time_step qn (fun ctime =>
                lookup_all qm (infos ++ [mkQueueInfo qn ctime 0 gcs]) gcs) w1)
      as [[t [w2 [E Hs2]]]|[e [w2 E]]]; rewrite E in H; [|discriminate].
    rewrite <- Hs, <- Hs2. eapply IH; [exact H| |].
    + rewrite Hs2, Hs. intros i c Hin Hc. apply in_app_or in Hin as [Hin|[<-|[]]]; eauto.
    + rewrite Hs2, Hs. exact Hgcs.
Qed.

Lemma lookupgroup_all_sound gm : forall infos acc w res w',
  lookupgroup_all gm infos acc w = (Ok res, w') ->
  (forall i c, In i infos -> In c (gi_Queues i) -> stored_as lookupgroup_config (w_store w) c) ->
  (forall c, In c acc -> stored_as lookupgroup_config (w_store w) c) ->
  forall i c, In i res -> In c (gi_Queues i) -> stored_as lookupgroup_config (w_store w) c.
Proof.
  induction gm as [|[gn qns] gm IH]; intros infos acc w res w' H Hi Ha; simpl in H.
  - inversion H; subst. exact Hi.
  - unfold bind at 1 in H.
    destruct (lookupgroup_queues gn qns acc w) as [[gcs|e] w1] eqn:Eg; [|discriminate].
    destruct (lookupgroup_queues_sound gn qns acc w gcs w1 Eg) as [Hs Hg].
    rewrite <- Hs. eapply IH; [exact H| |].
    + rewrite Hs. intros i c Hin Hc. apply in_app_or in Hin as [Hin|[<-|[]]]; eauto.
      destruct (Hg c Hc); auto.
    + rewrite Hs. intros c Hin. destruct (Hg c Hin); auto.
Qed.

(** ** Claims *)

(** C7: SendMsg and ReceiveMsg check the Broker Registry without a forced
    refresh, while Create, Update, Delete, AddGroup, UpdateGroup,
    DeleteGroup, GetSingleGroup, GetSendMetrics and GetReceiveMetrics
    check it with a forced refresh; in a registry whose cached view still
    lists q1, a send on q1 succeeds while a send-metrics query on q1 fails
    NotFound. *)
Theorem existence_check_refresh :
  forall q g d grp wr rd url ips st en n w,
    first_call (SendMsg q g d) w = Some (CExistTopic q false) /\
    first_call (ReceiveMsg q g) w = Some (CExistTopic q false) /\
    first_call (Create q) w = Some (CExistTopic q true) /\
    first_call (Update q) w = Some (CExistTopic q true) /\
    first_call (Delete q) w = Some (CExistTopic q true) /\
    first_call (AddGroup grp q wr rd url ips) w = Some (CExistTopic q true) /\
    first_call (UpdateGroup grp q wr rd url ips) w = Some (CExistTopic q true) /\
    first_call (DeleteGroup grp q) w = Some (CExistTopic q true) /\
    first_call (GetSingleGroup grp q) w = Some (CExistTopic q true) /\
    first_call (GetSendMetrics q g st en n) w = Some (CExistTopic q true) /\
    first_call (GetReceiveMetrics q g st en n) w = Some (CExistTopic q true) /\
    fst (SendMsg "q1" "g1" [] stale_world) = Ok tt /\
    fst (GetSendMetrics "q1" "g1" 0 1 1 stale_world) = Fail ErrNotFound.
Proof.
  intros. repeat split;
    try (unfold SendMsg, ReceiveMsg, Create, Update, Delete, AddGroup, UpdateGroup,
           DeleteGroup, GetSingleGroup, GetSendMetrics, GetReceiveMetrics;
         first_exist_topic);
    reflexivity.
Qed.

(** C1 (evaluated): the name checks of Create, Update, Delete, AddGroup,
    UpdateGroup and DeleteGroup build a NotValid error and drop it.  With
    an empty name every one of them goes on to query the Broker Registry;
    on an empty service Create of the empty name succeeds and writes that
    queue into both stores, while Update, Delete, AddGroup, UpdateGroup and
    DeleteGroup with empty names fail NotFound. *)
Theorem empty_name_not_rejected :
  (forall w grp q wr rd url ips,
     first_call (Create "") w = Some (CExistTopic "" true) /\
     first_call (Update "") w = Some (CExistTopic "" true) /\
     first_call (Delete "") w = Some (CExistTopic "" true) /\
     first_call (AddGroup "" q wr rd url ips) w = Some (CExistTopic q true) /\
     first_call (UpdateGroup grp "" wr rd url ips) w = Some (CExistTopic "" true) /\
     first_call (DeleteGroup "" "") w = Some (CExistTopic "" true)) /\
  fst (Create "" empty_world) = Ok tt /\
  topics (s_reg (w_store (snd (Create "" empty_world)))) = [""] /\
  map fst (m_queues (s_meta (w_store (snd (Create "" empty_world))))) = [""] /\
  fst (Update "" empty_world) = Fail ErrNotFound /\
  fst (Delete "" empty_world) = Fail ErrNotFound /\
  fst (AddGroup "" "" true true "" [] empty_world) = Fail ErrNotFound /\
  fst (UpdateGroup "" "" true true "" [] empty_world) = Fail ErrNotFound /\
  fst (DeleteGroup "" "" empty_world) = Fail ErrNotFound.
Proof.
  split.
  - intros. repeat split;
      unfold Create, Update, Delete, AddGroup, UpdateGroup, DeleteGroup;
      first_exist_topic.
  - repeat split; reflexivity.
Qed.

(** C5 (evaluated): Lookup("", "") keeps one [groupConfigs] slice for the
    whole loop over the queue->groups index, so each QueueInfo carries the
    configs of every queue visited so far: with g1@q1 and g2@q2, the
    QueueInfo of q2 lists g1's config as well as g2's.  On an empty service
    the result is the empty list. *)
Theorem lookup_all_accumulates :
  fst (Lookup "" "" two_queues_world) =
    Ok [mkQueueInfo "q1" 10 0 [lookup_config (cfg "g1" "q1")];
        mkQueueInfo "q2" 20 0 [lookup_config (cfg "g1" "q1"); lookup_config (cfg "g2" "q2")]] /\
  fst (Lookup "" "" empty_world) = Ok [].
Proof. split; reflexivity. Qed.


(** C9 (counterexample): the GroupConfig Lookup("", "") returns for g1@q1
    carries the group name "g1". *)
Lemma lookup_config_has_group_name :
  exists infos i c,
    fst (Lookup "" "" two_queues_world) = Ok infos /\
    In i infos /\ In c (qi_Groups i) /\ gc_Group c = "g1".
Proof.
  eexists. exists (mkQueueInfo "q1" 10 0 [lookup_config (cfg "g1" "q1")]),
                  (lookup_config (cfg "g1" "q1")).
  split; [reflexivity|]. simpl. auto.
Qed.

(** C2: for a non-empty name, Create(q) first queries the Broker Registry
    with a forced refresh and fails AlreadyExists if q is there, then
    queries the Extended Metadata Store and fails AlreadyExists if q is
    there; only then it writes the metadata record and after it creates the
    topic with the configured replication factor and partition count.  A
    failed topic creation leaves the metadata record in place. *)
Theorem create_order (q : string) (w : World) (Hq : q <> "") :
  let s := w_store w in
  let f := w_faulty w in
  let tr := w_trace w in
  let T := CCreateTopic q (KafkaReplications (s_conf s)) (KafkaPartitions (s_conf s))
                        (KafkaZKAddr (s_conf s)) in
  let r := fst (Create q w) in
  let s' := w_store (snd (Create q w)) in
  let tr' := w_trace (snd (Create q w)) in
  (f (CExistTopic q true) = false -> mem q (topics (s_reg s)) = true ->
     r = Fail ErrAlreadyExists /\ s' = s /\ tr' = tr ++ [CExistTopic q true]) /\
  (f (CExistTopic q true) = false -> mem q (topics (s_reg s)) = false ->
   f (CExistQueue q) = false -> mem q (map fst (m_queues (s_meta s))) = true ->
     r = Fail ErrAlreadyExists /\ s' = s /\ tr' = tr ++ [CExistTopic q true; CExistQueue q]) /\
  (f (CExistTopic q true) = false -> mem q (topics (s_reg s)) = false ->
   f (CExistQueue q) = false -> mem q (map fst (m_queues (s_meta s))) = false ->
     tr' = tr ++ [CExistTopic q true; CExistQueue q; CAddQueue q]
              ++ (if f (CAddQueue q) then [] else [T]) /\
     (f (CAddQueue q) = true -> r = Fail ErrUpstream /\ s' = s) /\
     (f (CAddQueue q) = false -> mem q (map fst (m_queues (s_meta s'))) = true) /\
     (f (CAddQueue q) = false -> f T = true ->
        r = Fail ErrUpstream /\ mem q (topics (s_reg s')) = false) /\
     (f (CAddQueue q) = false -> f T = false ->
        r = Ok tt /\ mem q (topics (s_reg s')) = true)).
Proof.
  destruct w as [s f tr]. cbv zeta. simpl w_store; simpl w_faulty; simpl w_trace.
  unfold_ops.
  split; [|split].
  - intros HE HT. simpl. rewrite HE. simpl. rewrite HT. simpl. auto.
  - intros HE HT HQ HM. simpl. rewrite HE. simpl. rewrite HT. simpl. rewrite HQ. simpl.
    rewrite HM. simpl. rewrite <- app_assoc. auto.
  - intros HE HT HQ HM. simpl. rewrite HE. simpl. rewrite HT. simpl. rewrite HQ. simpl.
    rewrite HM. simpl.
    destruct (f (CAddQueue q)) eqn:HA; simpl.
    + rewrite <- !app_assoc. repeat split; try discriminate; auto.
    + destruct (f (CCreateTopic q _ _ _)) eqn:HC; simpl; rewrite ?HT; simpl;
        rewrite <- !app_assoc; repeat split; try discriminate; auto; intros;
        first [apply mem_assoc_set | apply mem_app_last].
Qed.

Lemma create_order_witness :
  "q1" <> "" /\
  fst (Create "q1" empty_world) = Ok tt /\
  mem "q1" (topics (s_reg (w_store (snd (Create "q1" empty_world))))) = true.
Proof.
  split; [discriminate|].
  destruct (create_order "q1" empty_world ltac:(discriminate)) as [_ [_ H]].
  destruct (H eq_refl eq_refl eq_refl eq_refl) as [_ [_ [_ [_ H5]]]].
  exact (H5 eq_refl eq_refl).
Defined.

(** C3: Delete(q) fails NotFound, with both stores unchanged, when q is
    missing from the Broker Registry or from the Extended Metadata Store;
    otherwise it deletes the metadata record first and the topic second.
    After a successful Create(q), Delete(q) succeeds and leaves q in neither
    store, and a second Delete(q) fails NotFound. *)
Theorem delete_order (q : string) (w : World) :
  let s := w_store w in
  let f := w_faulty w in
  let tr := w_trace w in
  let zk := KafkaZKAddr (s_conf s) in
  let r := fst (Delete q w) in
  let s' := w_store (snd (Delete q w)) in
  let tr' := w_trace (snd (Delete q w)) in
  (f (CExistTopic q true) = false -> f (CExistQueue q) = false ->
   mem q (topics (s_reg s)) = false \/ mem q (map fst (m_queues (s_meta s))) = false ->
     r = Fail ErrNotFound /\ s' = s) /\
  (f (CExistTopic q true) = false -> f (CExistQueue q) = false ->
   mem q (topics (s_reg s)) = true -> mem q (map fst (m_queues (s_meta s))) = true ->
     tr' = tr ++ [CExistTopic q true; CExistQueue q; CDelQueue q]
              ++ (if f (CDelQueue q) then [] else [CDeleteTopic q zk]) /\
     (f (CDelQueue q) = false -> f (CDeleteTopic q zk) = false ->
        r = Ok tt /\ mem q (topics (s_reg s')) = false /\
        mem q (map fst (m_queues (s_meta s'))) = false)) /\
  ((forall c, f c = false) -> fst (Create q w) = Ok tt ->
     let w1 := snd (Create q w) in
     let w2 := snd (Delete q w1) in
     fst (Delete q w1) = Ok tt /\
     mem q (topics (s_reg (w_store w2))) = false /\
     mem q (map fst (m_queues (s_meta (w_store w2)))) = false /\
     fst (Delete q w2) = Fail ErrNotFound).
Proof.
  assert (HA : forall w, w_faulty w (CExistTopic q true) = false ->
            w_faulty w (CExistQueue q) = false ->
            mem q (topics (s_reg (w_store w))) = false \/
            mem q (map fst (m_queues (s_meta (w_store w)))) = false ->
            fst (Delete q w) = Fail ErrNotFound /\ w_store (snd (Delete q w)) = w_store w).
  { intros [s f tr] HE HQ Hm. simpl in *. unfold_ops. simpl. rewrite HE. simpl.
    destruct (mem q (topics (s_reg s))) eqn:HT; simpl; [|auto].
    rewrite HQ. simpl. destruct Hm as [Hm|Hm]; [congruence|]. rewrite Hm. simpl. auto. }
  assert (HB : forall w, w_faulty w (CExistTopic q true) = false ->
            w_faulty w (CExistQueue q) = false ->
            mem q (topics (s_reg (w_store w))) = true ->
            mem q (map fst (m_queues (s_meta (w_store w)))) = true ->
            w_trace (snd (Delete q w)) =
              w_trace w ++ [CExistTopic q true; CExistQueue q; CDelQueue q]
                ++ (if w_faulty w (CDelQueue q) then []
                    else [CDeleteTopic q (KafkaZKAddr (s_conf (w_store w)))]) /\
            (w_faulty w (CDelQueue q) = false ->
             w_faulty w (CDeleteTopic q (KafkaZKAddr (s_conf (w_store w)))) = false ->
             fst (Delete q w) = Ok tt /\
             mem q (topics (s_reg (w_store (snd (Delete q w))))) = false /\
             mem q (map fst (m_queues (s_meta (w_store (snd (Delete q w)))))) = false)).
  { intros [s f tr] HE HQ HT HM. simpl in *. unfold_ops. simpl.
    rewrite HE. simpl. rewrite HT. simpl. rewrite HQ. simpl. rewrite HM. simpl.
    destruct (f (CDelQueue q)) eqn:HD; simpl.
    - rewrite <- !app_assoc. split; [reflexivity|discriminate].
    - destruct (f (CDeleteTopic q _)) eqn:HZ; simpl.
      + rewrite <- !app_assoc. split; [reflexivity|discriminate].
      + rewrite <- !app_assoc. split; [reflexivity|]. intros _ _.
        split; [reflexivity|]. split; [apply mem_filter_neq|].
        apply mem_assoc_del. }
  cbv zeta. split; [|split].
  - apply HA.
  - apply HB.
  - intros Hf Hc.
    destruct (create_ok_stores q w Hc) as [HT [HM HF]].
    set (w1 := snd (Create q w)) in *.
    destruct (HB w1) as [_ HB1]; rewrite ?HF; auto.
    destruct HB1 as [Hok [HT2 HM2]]; rewrite ?HF; auto.
    split; [exact Hok|]. split; [exact HT2|]. split; [exact HM2|].
    apply HA; [rewrite delete_faulty, HF; auto | rewrite delete_faulty, HF; auto | auto].
Qed.

Lemma delete_order_witness :
  (forall c, w_faulty empty_world c = false) /\
  fst (Create "q1" empty_world) = Ok tt /\
  fst (Delete "q1" (snd (Delete "q1" (snd (Create "q1" empty_world))))) = Fail ErrNotFound.
Proof.
  split; [reflexivity|]. split; [reflexivity|].
  destruct (delete_order "q1" empty_world) as [_ [_ H]].
  destruct (H (fun _ => eq_refl) eq_refl) as [_ [_ [_ H4]]].
  exact H4.
Defined.

(** C4: ReceiveMsg keys its consumer cache by queue + "@" + group.  A call
    for a key already cached reuses the cached consumer: the cache and the
    number of constructed consumers stay as they are.  A call for an absent
    key whose existence check passes constructs one consumer and caches it
    under the key; if the construction fails, the call returns an error and
    neither the cache nor the count changes.  Any number of calls for the
    same pair construct at most one consumer, and a cached one is never
    replaced. *)
Theorem receive_session_cache (q g : string) (w : World) (m : nat) :
  let k := session_key q g in
  let s := w_store w in
  let f := w_faulty w in
  let cm := s_consumerMap s in
  let n := n_consumers (s_trans s) in
  let addrs := split_on ","%char (KafkaBrokerAddr (s_conf s)) in
  let r := fst (ReceiveMsg q g w) in
  let s' := w_store (snd (ReceiveMsg q g w)) in
  let wm := run_n m (ReceiveMsg q g) w in
  k = (q ++ "@" ++ g)%string /\
  (forall c, assoc k cm = Some c ->
     s_consumerMap s' = cm /\ n_consumers (s_trans s') = n) /\
  (assoc k cm = None -> f (CExistTopic q false) = false -> mem q (cached (s_reg s)) = true ->
   f (CNewConsumer addrs q g) = false ->
     s_consumerMap s' = assoc_set k (mkConsumer n q g) cm /\
     n_consumers (s_trans s') = S n) /\
  (assoc k cm = None -> f (CNewConsumer addrs q g) = true ->
     (exists e, r = Fail e) /\ s_consumerMap s' = cm /\ n_consumers (s_trans s') = n) /\
  n_consumers (s_trans (w_store wm)) <= S n /\
  (forall c, assoc k cm = Some c ->
     assoc k (s_consumerMap (w_store wm)) = Some c /\ n_consumers (s_trans (w_store wm)) = n).
Proof.
  cbv zeta. split; [reflexivity|]. split; [|split; [|split; [|split]]].
  - intros c. apply receive_cached.
  - destruct w as [s f tr]. unfold session_key. simpl. intros H HE HC HN.
    unfold_ops. simpl. rewrite HE. simpl. rewrite HC. simpl. rewrite H. simpl.
    rewrite HN. simpl. case_all; auto.
  - destruct w as [s f tr]. unfold session_key. simpl. intros H HN.
    unfold_ops. case_all; try congruence; simpl; repeat split; eauto.
  - apply run_receive_bound.
  - intros c. apply run_receive_cached.
Qed.
















(** C8: when q exists in the Broker Registry's cached view, SendMsg(q, g,
    d) produces d to q's log, the produce call carries no group and the
    transport state it leaves does not depend on g; the send counter of
    (q, g) grows by exactly one when the produce succeeds and stays as it
    is when it fails, in which case the error is returned; no other send
    counter changes. *)
Theorem send_accounting (q g : string) (d : payload) (w : World)
    (HE : w_faulty w (CExistTopic q false) = false)
    (HC : mem q (cached (s_reg (w_store w))) = true) :
  let s := w_store w in
  let f := w_faulty w in
  let r := fst (SendMsg q g d w) in
  let s' := w_store (snd (SendMsg q g d w)) in
  w_trace (snd (SendMsg q g d w)) =
    w_trace w ++ [CExistTopic q false; CProduce q d]
              ++ (if f (CProduce q d) then [] else [CStatisticSend q g 1]) /\
  send_count (s_stats s') q g =
    send_count (s_stats s) q g + (if f (CProduce q d) then 0 else 1) /\
  (forall q2 g2, (q2, g2) <> (q, g) ->
     send_count (s_stats s') q2 g2 = send_count (s_stats s) q2 g2) /\
  (r = Ok tt <-> f (CProduce q d) = false) /\
  (f (CProduce q d) = true -> r = Fail ErrUpstream /\ s' = s) /\
  (f (CProduce q d) = false -> logs (s_trans s') q = logs (s_trans s) q ++ [d]) /\
  (forall g', s_trans (w_store (snd (SendMsg q g' d w))) = s_trans s').
Proof.
  destruct w as [s f tr]. simpl in HE, HC. cbv zeta. simpl.
  unfold_ops. simpl. rewrite HE. simpl. rewrite HC. simpl.
  destruct (f (CProduce q d)) eqn:HP; simpl.
  - rewrite <- !app_assoc. repeat split; try discriminate; auto; lia.
  - rewrite <- !app_assoc. split; [reflexivity|]. split.
    + unfold bump. rewrite !String.eqb_refl. simpl. lia.
    + split; [|split; [split; reflexivity|split; [discriminate|split]]].
      * intros q2 g2 Hne. unfold bump.
        destruct (String.eqb q2 q) eqn:E1, (String.eqb g2 g) eqn:E2; simpl; auto.
        apply String.eqb_eq in E1, E2. subst. contradiction.
      * intros _. now rewrite String.eqb_refl.
      * reflexivity.
Qed.

Lemma send_accounting_witness :
  w_faulty two_queues_world (CExistTopic "q1" false) = false /\
  mem "q1" (cached (s_reg (w_store two_queues_world))) = true /\
  send_count (s_stats (w_store (snd (SendMsg "q1" "g1" [Byte.x61] two_queues_world)))) "q1" "g1" = 1.
Proof.
  split; [reflexivity|]. split; [reflexivity|].
  destruct (send_accounting "q1" "g1" [Byte.x61] two_queues_world eq_refl eq_refl)
    as [_ [H _]].
  exact H.
Defined.

(** C9 (amended): every GroupConfig that Lookup returns is built from a
    stored group record: its [Group], [Write], [Read], [Url] and [Ips] are
    the record's, and its [Queue] is left unset.  LookupGroup mirrors it:
    its configs carry the record's [Queue] and ACL fields and leave [Group]
    unset. *)
Theorem lookup_config_fields (w : World) :
  (forall q g infos w', Lookup q g w = (Ok infos, w') ->
     forall i c, In i infos -> In c (qi_Groups i) ->
       gc_Queue c = "" /\
       exists s0, In s0 (m_groups (s_meta (w_store w))) /\
         gc_Group c = gc_Group s0 /\ gc_Write c = gc_Write s0 /\ gc_Read c = gc_Read s0 /\
         gc_Url c = gc_Url s0 /\ gc_Ips c = gc_Ips s0) /\
  (forall grp infos w', LookupGroup grp w = (Ok infos, w') ->
     forall i c, In i infos -> In c (gi_Queues i) ->
       gc_Group c = "" /\
       exists s0, In s0 (m_groups (s_meta (w_store w))) /\
         gc_Queue c = gc_Queue s0 /\ gc_Write c = gc_Write s0 /\ gc_Read c = gc_Read s0 /\
         gc_Url c = gc_Url s0 /\ gc_Ips c = gc_Ips s0).
Proof.
  split.
  - intros q g infos w' H i c Hi Hc.
    enough (Hs : stored_as lookup_config (w_store w) c).
    { destruct Hs as [s0 [Hin ->]]. simpl. split; [reflexivity|]. exists s0. repeat split; auto. }
    unfold Lookup in H. destruct (String.eqb q "").
    + unfold bind at 1, GetQueueMap, ext in H. destruct (w_faulty w _); [discriminate|].
      simpl in H. eapply lookup_all_sound in H; eauto; simpl; intros; contradiction.
    + destruct (String.eqb g "").
      * unfold bind at 1, GetQueueMap, ext in H. destruct (w_faulty w _); [discriminate|].
        simpl in H. destruct (assoc q _) as [gns|].
        -- unfold bind at 1 in H.
           destruct (lookup_groups q gns [] _) as [[gcs|e] w1] eqn:Eg; [|discriminate].
           apply lookup_groups_sound in Eg as [Hs Hg]. simpl in Hs.
           destruct (query_time_step q (fun ctime => ret [mkQueueInfo q ctime 0 gcs]) w1)
             as [[t [w2 [E _]]]|[e [w2 E]]]; rewrite E in H; [|discriminate].
           inversion H; subst. destruct Hi as [<-|[]]. simpl in Hc.
           destruct (Hg c Hc) as [[]|Hp]. exact Hp.
        -- inversion H; subst. destruct Hi.
      * rewrite get_group_config_step in H. destruct (w_faulty w _); [discriminate|].
        destruct (find (is_key g q) _) as [c0|] eqn:Ef.
        -- destruct (query_time_step q (fun ctime => ret [mkQueueInfo q ctime 0 [lookup_config c0]])
                (mkWorld (w_store w) (w_faulty w) (w_trace w ++ [CGetGroupConfig g q])))
             as [[t [w2 [E _]]]|[e [w2 E]]]; rewrite E in H; [|discriminate].
           inversion H; subst. destruct Hi as [<-|[]]. destruct Hc as [<-|[]].
           exists c0. split; [apply find_some in Ef; tauto|reflexivity].
        -- destruct (query_time_step q (fun ctime => ret [mkQueueInfo q ctime 0 []])
                (mkWorld (w_store w) (w_faulty w) (w_trace w ++ [CGetGroupConfig g q])))
             as [[t [w2 [E _]]]|[e [w2 E]]]; rewrite E in H; [|discriminate].
           inversion H; subst. destruct Hi as [<-|[]]. destruct Hc.
  - intros grp infos w' H i c Hi Hc.
    enough (Hs : stored_as lookupgroup_config (w_store w) c).
    { destruct Hs as [s0 [Hin ->]]. simpl. split; [reflexivity|]. exists s0. repeat split; auto. }
    unfold LookupGroup in H. destruct (String.eqb grp "");
      unfold bind at 1, GetGroupMap, ext in H; destruct (w_faulty w _); try discriminate;
      simpl in H.
    + eapply lookupgroup_all_sound in H; eauto; simpl; intros; contradiction.
    + destruct (assoc grp _) as [qns|].
      * unfold bind at 1 in H.
        destruct (lookupgroup_queues grp qns [] _) as [[gcs|e] w1] eqn:Eg; [|discriminate].
        apply lookupgroup_queues_sound in Eg as [Hs Hg]. simpl in Hs.
        inversion H; subst. destruct Hi as [<-|[]]. simpl in Hc.
        destruct (Hg c Hc) as [[]|Hp]. exact Hp.
      * inversion H; subst. destruct Hi.
Qed.

Lemma lookup_config_fields_witness :
  gc_Queue (lookup_config (cfg "g1" "q1")) = "" /\
  gc_Group (lookupgroup_config (cfg "g1" "q1")) = "".
Proof.
  destruct (lookup_config_fields two_queues_world) as [H1 H2].
  split.
  - apply (H1 "" "" _ _ eq_refl (mkQueueInfo "q1" 10 0 [lookup_config (cfg "g1" "q1")]));
      simpl; auto.
  - apply (H2 "" _ _ eq_refl (mkGroupInfo "g1" [lookupgroup_config (cfg "g1" "q1")]));
      simpl; auto.
Defined.

(** C10: SendMsg and ReceiveMsg never read the group records: run from two
    worlds that differ only in the group records (any of them, or none),
    they return the same result and leave worlds that again differ only in
    the group records, which they do not change. *)
Theorem send_receive_ignore_groups (q g : string) (d : payload) (gs : list GroupConfig) (w : World) :
  SendMsg q g d (with_groups gs w) =
    (fst (SendMsg q g d w), with_groups gs (snd (SendMsg q g d w))) /\
  ReceiveMsg q g (with_groups gs w) =
    (fst (ReceiveMsg q g w), with_groups gs (snd (ReceiveMsg q g w))).
Proof.
  destruct w as [[conf reg [qs gs0 clk] trans stats cm] f tr].
  unfold with_groups. unfold_ops. split; case_all; reflexivity.
Qed.

(** ** Further properties of queue_imp.go *)

Lemma readonly_ret {A} (a : A) : readonly (ret a).
Proof. intro w. reflexivity. Qed.

Lemma readonly_throw {A} e : readonly (@throw A e).
Proof. intro w. reflexivity. Qed.

Lemma readonly_get_store : readonly get_store.
Proof. intro w. reflexivity. Qed.

Lemma readonly_ext {A} c (eff : Store -> Result A * Store) :
  (forall s, snd (eff s) = s) -> readonly (ext c eff).
Proof.
  intros He w. unfold ext. destruct (w_faulty w c); [reflexivity|].
  specialize (He (w_store w)). destruct (eff (w_store w)). simpl in *. exact He.
Qed.

Lemma readonly_bind {A B} (m : M A) (k : A -> M B) :
  readonly m -> (forall a, readonly (k a)) -> readonly (bind m k).
Proof.
  intros Hm Hk w. unfold bind. specialize (Hm w).
  destruct (m w) as [[a|e] w1]; simpl in *; [|exact Hm].
  rewrite Hk. exact Hm.
Qed.

Ltac solve_readonly :=
  repeat (intros;
    match goal with
    | |- readonly (bind _ _) => apply readonly_bind
    | |- readonly (if ?b then _ else _) => destruct b
    | |- readonly (match ?x with _ => _ end) => destruct x
    | |- readonly (ret _) => apply readonly_ret
    | |- readonly (throw _) => apply readonly_throw
    | |- readonly get_store => apply readonly_get_store
    | |- readonly (ext _ _) =>
        apply readonly_ext; intros; simpl; repeat (match goal with
          |- context [match ?x with _ => _ end] => destruct x end); reflexivity
    | |- readonly _ =>
        unfold ExistTopic, QueueCreateTime, GetQueueMap, GetGroupMap, GetGroupConfig,
          MonitorGetSendMetrics, MonitorGetReceiveMetrics, check_name
    end).

Lemma readonly_lookup_groups qn gns acc : readonly (lookup_groups qn gns acc).
Proof. revert acc. induction gns; simpl; solve_readonly; auto. Qed.

Lemma readonly_lookupgroup_queues gn qns acc : readonly (lookupgroup_queues gn qns acc).
Proof. revert acc. induction qns; simpl; solve_readonly; auto. Qed.

Lemma readonly_lookup_all qm infos acc : readonly (lookup_all qm infos acc).
Proof.
  revert infos acc. induction qm as [|[qn gns] qm IH]; simpl; solve_readonly.
  - apply readonly_lookup_groups.
  - apply IH.
Qed.

Lemma readonly_lookupgroup_all gm infos acc : readonly (lookupgroup_all gm infos acc).
Proof.
  revert infos acc. induction gm as [|[gn qns] gm IH]; simpl; solve_readonly.
  - apply readonly_lookupgroup_queues.
  - apply IH.
Qed.

(** Update, Lookup, LookupGroup, GetSingleGroup, GetSendMetrics,
    GetReceiveMetrics and AckMsg write to no store, whatever their outcome;
    AckMsg fails NotImplemented without calling any collaborator, and
    Update succeeds on a queue the forced registry check finds. *)
Theorem readonly_operations (q g : string) (st en n : Z) :
  readonly (Update q) /\ readonly (Lookup q g) /\ readonly (LookupGroup g) /\
  readonly (GetSingleGroup g q) /\ readonly (GetSendMetrics q g st en n) /\
  readonly (GetReceiveMetrics q g st en n) /\
  (forall w, AckMsg q g w = (Fail ErrNotImplemented, w)) /\
  (forall w, w_faulty w (CExistTopic q true) = false ->
             mem q (topics (s_reg (w_store w))) = true -> fst (Update q w) = Ok tt).
Proof.
  repeat split.
  - unfold Update. rewrite check_name_ret. solve_readonly.
  - unfold Lookup. solve_readonly; auto using readonly_lookup_all, readonly_lookup_groups.
  - unfold LookupGroup. solve_readonly; auto using readonly_lookupgroup_all,
      readonly_lookupgroup_queues.
  - unfold GetSingleGroup. solve_readonly.
  - unfold GetSendMetrics. solve_readonly.
  - unfold GetReceiveMetrics. solve_readonly.
  - intros [s f tr] HE HT. simpl in *. unfold_ops. simpl. rewrite HE. simpl.
    now rewrite HT.
Qed.

(** Every operation that checks the registry with a forced refresh fails
    NotFound, writing to no store, when that check finds no topic. *)
Theorem strict_ops_absent_queue (q g grp : string) (wr rd : bool) (url : string)
    (ips : list string) (st en n : Z) (w : World)
    (HE : w_faulty w (CExistTopic q true) = false)
    (HT : mem q (topics (s_reg (w_store w))) = false) :
  fst (Update q w) = Fail ErrNotFound /\ w_store (snd (Update q w)) = w_store w /\
  fst (Delete q w) = Fail ErrNotFound /\ w_store (snd (Delete q w)) = w_store w /\
  fst (AddGroup grp q wr rd url ips w) = Fail ErrNotFound /\
  w_store (snd (AddGroup grp q wr rd url ips w)) = w_store w /\
  fst (UpdateGroup grp q wr rd url ips w) = Fail ErrNotFound /\
  w_store (snd (UpdateGroup grp q wr rd url ips w)) = w_store w /\
  fst (DeleteGroup grp q w) = Fail ErrNotFound /\
  w_store (snd (DeleteGroup grp q w)) = w_store w /\
  fst (GetSingleGroup grp q w) = Fail ErrNotFound /\
  fst (GetSendMetrics q g st en n w) = Fail ErrNotFound /\
  fst (GetReceiveMetrics q g st en n w) = Fail ErrNotFound.
Proof.
  destruct w as [s f tr]. simpl in HE, HT. unfold_ops. simpl. rewrite HE. simpl.
  rewrite HT. simpl. repeat split.
Qed.

Lemma strict_ops_absent_queue_witness :
  fst (AddGroup "g1" "missing" true true "" [] two_queues_world) = Fail ErrNotFound /\
  w_store (snd (AddGroup "g1" "missing" true true "" [] two_queues_world)) =
    w_store two_queues_world.
Proof.
  destruct (strict_ops_absent_queue "missing" "g1" "g1" true true "" [] 0 1 1 two_queues_world
              eq_refl eq_refl) as [_ [_ [_ [_ [H1 [H2 _]]]]]].
  split; [exact H1 | exact H2].
Defined.

(** SendMsg and ReceiveMsg fail NotFound, writing to no store, when the
    registry's cached view has no topic for the queue. *)
Theorem lenient_ops_absent_queue (q g : string) (d : payload) (w : World)
    (HE : w_faulty w (CExistTopic q false) = false)
    (HC : mem q (cached (s_reg (w_store w))) = false) :
  fst (SendMsg q g d w) = Fail ErrNotFound /\ w_store (snd (SendMsg q g d w)) = w_store w /\
  fst (ReceiveMsg q g w) = Fail ErrNotFound /\ w_store (snd (ReceiveMsg q g w)) = w_store w.
Proof.
  destruct w as [s f tr]. simpl in HE, HC. unfold_ops. simpl. rewrite HE. simpl.
  rewrite HC. simpl. repeat split.
Qed.

Lemma lenient_ops_absent_queue_witness :
  fst (SendMsg "missing" "g1" [] two_queues_world) = Fail ErrNotFound.
Proof.
  destruct (lenient_ops_absent_queue "missing" "g1" [] two_queues_world eq_refl eq_refl)
    as [H _]. exact H.
Defined.

Lemma is_key_spec g q c : is_key g q c = true <-> group_key c = (g, q).
Proof.
  unfold is_key, group_key. rewrite andb_true_iff, !String.eqb_eq. split.
  - intros [-> ->]. reflexivity.
  - intros H. inversion H. auto.
Qed.

Lemma find_app_none {A} (f : A -> bool) l1 l2 :
  find f l1 = None -> find f (l1 ++ l2) = find f l2.
Proof. induction l1 as [|x l1 IH]; simpl; [auto|]. destruct (f x); [discriminate|auto]. Qed.

Lemma find_app {A} (f : A -> bool) l1 l2 :
  find f (l1 ++ l2) = match find f l1 with Some y => Some y | None => find f l2 end.
Proof. induction l1 as [|x l1 IH]; simpl; [auto|]. destruct (f x); auto. Qed.

Lemma find_filter_removed g q gs :
  find (is_key g q) (filter (fun c => negb (is_key g q c)) gs) = None.
Proof.
  induction gs as [|x gs IH]; simpl; [reflexivity|].
  destruct (is_key g q x) eqn:E; simpl; [exact IH|]. rewrite E. exact IH.
Qed.

Lemma find_filter_other g q g' q' gs :
  (g', q') <> (g, q) ->
  find (is_key g' q') (filter (fun c => negb (is_key g q c)) gs) = find (is_key g' q') gs.
Proof.
  intros Hne. induction gs as [|x gs IH]; simpl; [reflexivity|].
  destruct (is_key g q x) eqn:E; simpl.
  - destruct (is_key g' q' x) eqn:E'; [|exact IH].
    apply is_key_spec in E, E'. congruence.
  - destruct (is_key g' q' x); [reflexivity|exact IH].
Qed.



(** AddGroup and UpdateGroup upsert: once either succeeds for (g, q),
    GetSingleGroup(g, q) returns exactly the record just written, and the
    records of every other (group, queue) pair read as before. *)
Theorem upsert_group_then_get
    (upd : string -> string -> bool -> bool -> string -> list string -> M unit)
    (g q : string) (wr rd : bool) (url : string) (ips : list string) (w : World)
    (Hupd : upd = AddGroup \/ upd = UpdateGroup)
    (Hok : fst (upd g q wr rd url ips w) = Ok tt)
    (HG : w_faulty w (CGetGroupConfig g q) = false) :
  let w1 := snd (upd g q wr rd url ips w) in
  fst (GetSingleGroup g q w1) = Ok (Some (mkGroupConfig g q wr rd url ips)) /\
  (forall g' q', (g', q') <> (g, q) ->
     find (is_key g' q') (m_groups (s_meta (w_store w1))) =
     find (is_key g' q') (m_groups (s_meta (w_store w)))).
Proof.
  destruct w as [s f tr]. simpl in HG. cbv zeta. revert Hok.
  destruct Hupd as [->| ->]; unfold_ops; case_all; intros; try discriminate;
    simpl; rewrite ?HG; simpl; try congruence; (split; [|intros g' q' Hne]).
  all: try (rewrite find_app_none by apply find_filter_removed; simpl;
            unfold is_key; simpl; now rewrite !String.eqb_refl).
  all: rewrite find_app, find_filter_other by exact Hne;
       destruct (find (is_key g' q') _); [reflexivity|]; simpl;
       destruct (is_key g' q' _) eqn:E; [|reflexivity];
       apply is_key_spec in E; unfold group_key in E; simpl in E; congruence.
Qed.


Lemma upsert_group_then_get_witness :
  fst (AddGroup "g3" "q1" false true "http://x" [] two_queues_world) = Ok tt /\
  fst (GetSingleGroup "g3" "q1" (snd (AddGroup "g3" "q1" false true "http://x" [] two_queues_world)))
    = Ok (Some (mkGroupConfig "g3" "q1" false true "http://x" [])).
Proof.
  split; [reflexivity|].
  destruct (upsert_group_then_get AddGroup "g3" "q1" false true "http://x" [] two_queues_world
              (or_introl eq_refl) eq_refl eq_refl) as [H _].
  exact H.
Defined.

(** Once DeleteGroup(g, q) succeeds, GetSingleGroup(g, q) succeeds with no
    record, and the records of every other (group, queue) pair read as
    before. *)
Theorem delete_group_then_get (g q : string) (w : World)
    (Hok : fst (DeleteGroup g q w) = Ok tt)
    (HG : w_faulty w (CGetGroupConfig g q) = false) :
  let w1 := snd (DeleteGroup g q w) in
  fst (GetSingleGroup g q w1) = Ok None /\
  (forall g' q', (g', q') <> (g, q) ->
     find (is_key g' q') (m_groups (s_meta (w_store w1))) =
     find (is_key g' q') (m_groups (s_meta (w_store w)))).
Proof.
  destruct w as [s f tr]. simpl in HG. cbv zeta. revert Hok.
  unfold DeleteGroup; unfold_ops; case_all; intros; try discriminate;
    simpl; rewrite ?HG; simpl; try congruence; (split; [|intros g' q' Hne]).
  - now rewrite find_filter_removed.
  - now apply find_filter_other.
Qed.

Lemma delete_group_then_get_witness :
  fst (DeleteGroup "g1" "q1" two_queues_world) = Ok tt /\
  fst (GetSingleGroup "g1" "q1" (snd (DeleteGroup "g1" "q1" two_queues_world))) = Ok None.
Proof.
  split; [reflexivity|].
  destruct (delete_group_then_get "g1" "q1" two_queues_world eq_refl eq_refl) as [H _].
  exact H.
Defined.



Lemma count_app_last q l : mem q l = false -> count_name q (l ++ [q]) = 1.
Proof.
  unfold count_name, mem. intro H. rewrite filter_app. simpl. rewrite String.eqb_refl.
  assert (filter (String.eqb q) l = []) as ->.
  { induction l as [|x l IH]; simpl in *; [reflexivity|].
    apply orb_false_iff in H as [H1 H2]. rewrite H1. auto. }
  reflexivity.
Qed.

Lemma count_assoc_set {A} q (v : A) l :
  mem q (map fst l) = false -> count_name q (map fst (assoc_set q v l)) = 1.
Proof.
  unfold count_name, mem. induction l as [|[k x] l IH]; simpl; intro H.
  - now rewrite String.eqb_refl.
  - apply orb_false_iff in H as [H1 H2]. rewrite H1. simpl. rewrite H1. auto.
Qed.

(** After a successful Create(q), a second Create(q) fails AlreadyExists
    and writes nothing, and each store holds q exactly once. *)
Theorem create_twice (q : string) (w : World)
    (Hok : fst (Create q w) = Ok tt)
    (HE : w_faulty w (CExistTopic q true) = false) :
  let w1 := snd (Create q w) in
  fst (Create q w1) = Fail ErrAlreadyExists /\
  w_store (snd (Create q w1)) = w_store w1 /\
  count_name q (topics (s_reg (w_store w1))) = 1 /\
  count_name q (map fst (m_queues (s_meta (w_store w1)))) = 1.
Proof.
  destruct w as [s f tr]. simpl in HE. cbv zeta. revert Hok.
  unfold_ops; case_all; intros; try discriminate; rewrite ?mem_app_last in *;
    try discriminate; repeat split;
    first [apply count_app_last | apply count_assoc_set]; assumption.
Qed.

Lemma create_twice_witness :
  fst (Create "q1" (snd (Create "q1" empty_world))) = Fail ErrAlreadyExists.
Proof.
  destruct (create_twice "q1" empty_world eq_refl eq_refl) as [H _]. exact H.
Defined.

Lemma mem_filter_other q q' l :
  q' <> q -> mem q' (filter (fun t => negb (String.eqb q t)) l) = mem q' l.
Proof.
  intro Hne. unfold mem. induction l as [|t l IH]; simpl; [reflexivity|].
  destruct (String.eqb q t) eqn:E; simpl.
  - apply String.eqb_eq in E. subst t.
    assert (String.eqb q' q = false) as -> by now apply String.eqb_neq. exact IH.
  - now rewrite IH.
Qed.

Lemma assoc_assoc_del_other {A} q q' (l : list (string * A)) :
  q' <> q -> assoc q' (assoc_del q l) = assoc q' l.
Proof.
  intro Hne. unfold assoc_del. induction l as [|[k x] l IH]; simpl; [reflexivity|].
  destruct (String.eqb q k) eqn:E; simpl.
  - apply String.eqb_eq in E. subst k.
    assert (String.eqb q' q = false) as -> by now apply String.eqb_neq. exact IH.
  - now rewrite IH.
Qed.

Lemma filter_queue_other q q' gs :
  q' <> q ->
  filter (fun c => String.eqb (gc_Queue c) q')
         (filter (fun c => negb (String.eqb (gc_Queue c) q)) gs) =
  filter (fun c => String.eqb (gc_Queue c) q') gs.
Proof.
  intro Hne. induction gs as [|c gs IH]; simpl; [reflexivity|].
  destruct (String.eqb (gc_Queue c) q) eqn:E; simpl.
  - apply String.eqb_eq in E. rewrite E.
    assert (String.eqb q q' = false) as -> by (apply String.eqb_neq; auto). exact IH.
  - now rewrite IH.
Qed.

(** Delete(q) never touches another queue: whatever its outcome, for
    q' <> q the registry's answer for q', q''s metadata record and q''s
    group records are as before. *)
Theorem delete_frame (q q' : string) (w : World) (Hne : q' <> q) :
  let s := w_store w in
  let s' := w_store (snd (Delete q w)) in
  mem q' (topics (s_reg s')) = mem q' (topics (s_reg s)) /\
  assoc q' (m_queues (s_meta s')) = assoc q' (m_queues (s_meta s)) /\
  filter (fun c => String.eqb (gc_Queue c) q') (m_groups (s_meta s')) =
    filter (fun c => String.eqb (gc_Queue c) q') (m_groups (s_meta s)).
Proof.
  destruct w as [s f tr]. cbv zeta. unfold_ops. case_all; simpl; repeat split;
    auto using mem_filter_other, assoc_assoc_del_other, filter_queue_other.
Qed.

Lemma delete_frame_witness :
  mem "q2" (topics (s_reg (w_store (snd (Delete "q1" two_queues_world))))) = true.
Proof.
  destruct (delete_frame "q1" "q2" two_queues_world ltac:(discriminate)) as [H _].
  rewrite H. reflexivity.
Defined.

Lemma assoc_map_fst {A B} (F : string -> B) q (l : list (string * A)) :
  assoc q (map (fun p => (fst p, F (fst p))) l) =
    match assoc q l with Some _ => Some (F q) | None => None end.
Proof.
  induction l as [|[k x] l IH]; simpl; [reflexivity|].
  destruct (String.eqb q k) eqn:E; [|exact IH].
  apply String.eqb_eq in E. now subst.
Qed.

Lemma assoc_none_of_mem {A} q (l : list (string * A)) :
  mem q (map fst l) = false -> assoc q l = None.
Proof.
  unfold mem. induction l as [|[k x] l IH]; simpl; intro H; [reflexivity|].
  apply orb_false_iff in H as [H1 H2]. rewrite H1. auto.
Qed.

Lemma in_nub x l : In x (nub l) -> In x l.
Proof.
  induction l as [|y l IH]; simpl; [auto|]. intros [H|H]; [auto|].
  apply filter_In in H as [H _]. auto.
Qed.

Lemma assoc_map_keys {B} (F : string -> B) k l :
  ~ In k l -> assoc k (map (fun x => (x, F x)) l) = None.
Proof.
  induction l as [|x l IH]; simpl; intro H; [reflexivity|].
  destruct (String.eqb k x) eqn:E.
  - apply String.eqb_eq in E. subst. exfalso. auto.
  - auto.
Qed.

(** The single-queue modes of Lookup: Lookup(q, "") for a queue without
    metadata record returns an empty list, not an error; Lookup(q, g) for a
    queue with a record and no record for g returns one QueueInfo, with the
    queue's creation time and no groups. *)
Theorem lookup_single_edges (q g : string) (w : World)
    (Hq : q <> "") (Hg : g <> "") (Hf : forall c, w_faulty w c = false) :
  let m := s_meta (w_store w) in
  (mem q (map fst (m_queues m)) = false -> fst (Lookup q "" w) = Ok []) /\
  (forall t, assoc q (m_queues m) = Some t -> find (is_key g q) (m_groups m) = None ->
     fst (Lookup q g w) = Ok [mkQueueInfo q t 0 []]).
Proof.
  destruct w as [s f tr]. simpl in Hf. cbv zeta. simpl.
  apply String.eqb_neq in Hq, Hg. unfold Lookup. rewrite Hq, Hg. split.
  - intro Hm. unfold bind at 1, GetQueueMap, ext. simpl. rewrite Hf. simpl.
    rewrite (assoc_map_fst (fun q0 => groups_of q0 (m_groups (s_meta s)))).
    now rewrite assoc_none_of_mem.
  - intros t Ht Hn. rewrite get_group_config_step. simpl. rewrite Hf, Hn.
    unfold bind, QueueCreateTime, ext. simpl. rewrite Hf, Ht. reflexivity.
Qed.

Lemma lookup_single_edges_witness :
  fst (Lookup "q9" "" two_queues_world) = Ok [] /\
  fst (Lookup "q1" "g9" two_queues_world) = Ok [mkQueueInfo "q1" 10 0 []].
Proof.
  destruct (lookup_single_edges "q1" "g9" two_queues_world
              ltac:(discriminate) ltac:(discriminate) (fun _ => eq_refl)) as [_ H2].
  destruct (lookup_single_edges "q9" "g9" two_queues_world
              ltac:(discriminate) ltac:(discriminate) (fun _ => eq_refl)) as [H1 _].
  split; [exact (H1 eq_refl) | exact (H2 10%Z eq_refl eq_refl)].
Defined.

(** LookupGroup(g) for a group that has no record returns an empty list,
    not an error. *)
Theorem lookupgroup_absent (g : string) (w : World) (Hg : g <> "")
    (Hf : w_faulty w CGetGroupMap = false)
    (Hn : ~ In g (map gc_Group (m_groups (s_meta (w_store w))))) :
  fst (LookupGroup g w) = Ok [].
Proof.
  destruct w as [s f tr]. simpl in *. apply String.eqb_neq in Hg.
  unfold LookupGroup. rewrite Hg. unfold bind at 1, GetGroupMap, ext. simpl. rewrite Hf. simpl.
  rewrite assoc_map_keys; [reflexivity|]. intro H. apply Hn, in_nub, H.
Qed.

Lemma lookupgroup_absent_witness : fst (LookupGroup "g9" two_queues_world) = Ok [].
Proof.
  apply lookupgroup_absent; [discriminate | reflexivity |].
  simpl. intuition discriminate.
Defined.

Lemma find_unique c gs :
  NoDup (map group_key gs) -> In c gs -> find (is_key (gc_Group c) (gc_Queue c)) gs = Some c.
Proof.
  induction gs as [|x gs IH]; simpl; intros Hd Hin; [contradiction|].
  apply NoDup_cons_iff in Hd as [Hx Hd].
  destruct (is_key (gc_Group c) (gc_Queue c) x) eqn:E.
  - destruct Hin as [->|Hin]; [reflexivity|].
    apply is_key_spec in E. exfalso. apply Hx. rewrite E.
    change (gc_Group c, gc_Queue c) with (group_key c). now apply in_map.
  - destruct Hin as [->|Hin]; [|auto].
    unfold is_key in E. now rewrite !String.eqb_refl in E.
Qed.

Lemma lookup_groups_exact q l : forall acc w,
  (forall c, w_faulty w c = false) ->
  keys_unique (w_store w) ->
  (forall c, In c l -> In c (m_groups (s_meta (w_store w))) /\ gc_Queue c = q) ->
  exists w', lookup_groups q (map gc_Group l) acc w = (Ok (acc ++ map lookup_config l), w') /\
             w_store w' = w_store w /\ w_faulty w' = w_faulty w.
Proof.
  induction l as [|c l IH]; intros acc w Hf Hu Hl; simpl.
  - exists w. rewrite app_nil_r. auto.
  - destruct (Hl c (or_introl eq_refl)) as [Hin Hq]. subst q.
    rewrite get_group_config_step, Hf, find_unique by assumption.
    destruct (IH (acc ++ [lookup_config c])
                 (mkWorld (w_store w) (w_faulty w) (w_trace w ++ [CGetGroupConfig (gc_Group c) (gc_Queue c)])))
      as [w' [E [Hs Hf']]]; simpl; auto.
    + intros c' Hc'. apply Hl. now right.
    + exists w'. rewrite E, <- app_assoc. auto.
Qed.

(** Unlike Lookup("", ""), the single-queue mode Lookup(q, "") returns
    exactly q's own groups: with no failing call and group records unique
    per (group, queue), it returns one QueueInfo with q's creation time,
    Length 0 and the Lookup view of q's group records, in store order. *)
Theorem lookup_queue_exact (q : string) (t : Z) (w : World) (Hq : q <> "")
    (Hf : forall c, w_faulty w c = false)
    (Hu : keys_unique (w_store w))
    (Ht : assoc q (m_queues (s_meta (w_store w))) = Some t) :
  fst (Lookup q "" w) =
    Ok [mkQueueInfo q t 0 (map lookup_config
          (filter (fun c => String.eqb (gc_Queue c) q) (m_groups (s_meta (w_store w)))))].
Proof.
  apply String.eqb_neq in Hq. unfold Lookup. rewrite Hq. simpl.
  unfold bind at 1, GetQueueMap, ext. rewrite Hf.
  rewrite (assoc_map_fst (fun q0 => groups_of q0 (m_groups (s_meta (w_store w))))), Ht.
  unfold groups_of. unfold bind at 1.
  destruct (lookup_groups_exact q (filter (fun c => String.eqb (gc_Queue c) q)
              (m_groups (s_meta (w_store w)))) []
              (mkWorld (w_store w) (w_faulty w) (w_trace w ++ [CGetQueueMap])))
    as [w' [E [Hs Hf']]]; simpl; auto.
  - intros c Hc. apply filter_In in Hc as [Hin Hc]. apply String.eqb_eq in Hc. auto.
  - rewrite E. simpl in Hs, Hf'. unfold bind, QueueCreateTime, ext. rewrite Hf', Hf, Hs, Ht. reflexivity.
Qed.

Lemma lookup_queue_exact_witness :
  fst (Lookup "q2" "" two_queues_world) = Ok [mkQueueInfo "q2" 20 0 [lookup_config (cfg "g2" "q2")]].
Proof.
  apply (lookup_queue_exact "q2" 20 two_queues_world); [discriminate | reflexivity | | reflexivity].
  unfold keys_unique. simpl. repeat constructor; simpl; intuition discriminate.
Defined.

(** ReceiveMsg counts a delivery exactly when it returns one: on success the
    receive counter of (queue, group) goes up by one and no other counter
    moves; on failure the statistics are those before the call.  The send
    counters never move. *)
Theorem receive_accounting (q g : string) (w : World) :
  let x := s_stats (w_store w) in
  let x' := s_stats (w_store (snd (ReceiveMsg q g w))) in
  (forall d, fst (ReceiveMsg q g w) = Ok d ->
     recv_count x' q g = S (recv_count x q g) /\
     (forall q2 g2, q2 <> q \/ g2 <> g -> recv_count x' q2 g2 = recv_count x q2 g2)) /\
  (forall e, fst (ReceiveMsg q g w) = Fail e -> x' = x) /\
  send_count x' = send_count x.
Proof.
  destruct w as [s f tr]. cbv zeta. unfold_ops.
  case_all; simpl; repeat split; intros; try discriminate; try reflexivity;
    unfold bump; rewrite ?String.eqb_refl; simpl; try lia;
    match goal with
    | H : _ <> _ \/ _ <> _ |- _ =>
        destruct H as [H|H]; apply String.eqb_neq in H; rewrite H;
        rewrite ?andb_false_r; reflexivity
    end.
Qed.

(** A ReceiveMsg whose key queue + "@" + group is cached, and whose
    existence check passes, constructs no consumer: it calls Recv on the
    cached consumer, whatever queue and group that consumer was built for,
    and then at most the receive statistics. *)
Theorem receive_cached_trace (q g : string) (c : Consumer) (w : World)
    (Hc : assoc (session_key q g) (s_consumerMap (w_store w)) = Some c)
    (HE : w_faulty w (CExistTopic q false) = false)
    (HC : mem q (cached (s_reg (w_store w))) = true) :
  exists rest,
    w_trace (snd (ReceiveMsg q g w)) = w_trace w ++ [CExistTopic q false; CRecv (c_id c)] ++ rest /\
    (rest = [] \/ rest = [CStatisticReceive q g 1]).
Proof.
  destruct w as [s f tr]. unfold session_key in Hc. simpl in *. unfold_ops. simpl.
  rewrite HE. simpl. rewrite HC. simpl. rewrite Hc. simpl.
  destruct (f (CRecv (c_id c))); simpl.
  - exists []. rewrite <- app_assoc. auto.
  - destruct (nth_error _ _); simpl.
    + exists [CStatisticReceive q g 1]. rewrite <- !app_assoc. auto.
    + exists []. rewrite <- app_assoc. auto.
Qed.

(** The key does not separate the pairs ("a@b", "c") and ("a", "b@c"): a
    consumer built for queue "a@b" is reused by ReceiveMsg("a", "b@c"). *)
Lemma receive_cached_trace_witness :
  let c := mkConsumer 0 "a@b" "c" in
  let w := mkWorld
             (set_consumerMap [(session_key "a@b" "c", c)]
                (set_reg (mkRegistry ["a"; "a@b"] ["a"; "a@b"]) empty_store))
             no_faults [] in
  session_key "a" "b@c" = session_key "a@b" "c" /\ c_queue c <> "a" /\
  exists rest,
    w_trace (snd (ReceiveMsg "a" "b@c" w)) = [CExistTopic "a" false; CRecv 0] ++ rest /\
    (rest = [] \/ rest = [CStatisticReceive "a" "b@c" 1]).
Proof.
  cbv zeta. split; [reflexivity|]. split; [discriminate|].
  apply (receive_cached_trace "a" "b@c" (mkConsumer 0 "a@b" "c")); reflexivity.
Defined.

Lemma nub_in x l : In x l -> In x (nub l).
Proof.
  induction l as [|y l IH]; simpl; [auto|]. intros [->|H]; [now left|].
  destruct (String.eqb y x) eqn:E.
  - apply String.eqb_eq in E. now left.
  - right. apply filter_In. rewrite E. auto.
Qed.

Lemma assoc_map_keys_in {B} (F : string -> B) k l :
  In k l -> assoc k (map (fun x => (x, F x)) l) = Some (F k).
Proof.
  induction l as [|x l IH]; simpl; intro H; [contradiction|].
  destruct (String.eqb k x) eqn:E.
  - apply String.eqb_eq in E. now subst.
  - apply String.eqb_neq in E. destruct H as [->|H]; [congruence|auto].
Qed.

Lemma lookupgroup_queues_exact g l : forall acc w,
  (forall c, w_faulty w c = false) ->
  keys_unique (w_store w) ->
  (forall c, In c l -> In c (m_groups (s_meta (w_store w))) /\ gc_Group c = g) ->
  exists w', lookupgroup_queues g (map gc_Queue l) acc w = (Ok (acc ++ map lookupgroup_config l), w') /\
             w_store w' = w_store w /\ w_faulty w' = w_faulty w.
Proof.
  induction l as [|c l IH]; intros acc w Hf Hu Hl; simpl.
  - exists w. rewrite app_nil_r. auto.
  - destruct (Hl c (or_introl eq_refl)) as [Hin Hg]. subst g.
    rewrite get_group_config_step, Hf, find_unique by assumption.
    destruct (IH (acc ++ [lookupgroup_config c])
                 (mkWorld (w_store w) (w_faulty w) (w_trace w ++ [CGetGroupConfig (gc_Group c) (gc_Queue c)])))
      as [w' [E [Hs Hf']]]; simpl; auto.
    + intros c' Hc'. apply Hl. now right.
    + exists w'. rewrite E, <- app_assoc. auto.
Qed.

(** LookupGroup(g) for a group that has records returns exactly one
    GroupInfo: with no failing call and group records unique per
    (group, queue), its Queues are the LookupGroup view of g's records,
    in store order. *)
Theorem lookupgroup_exact (g : string) (w : World) (Hg : g <> "")
    (Hf : forall c, w_faulty w c = false)
    (Hu : keys_unique (w_store w))
    (Hin : In g (map gc_Group (m_groups (s_meta (w_store w))))) :
  fst (LookupGroup g w) =
    Ok [mkGroupInfo g (map lookupgroup_config
          (filter (fun c => String.eqb (gc_Group c) g) (m_groups (s_meta (w_store w)))))].
Proof.
  apply String.eqb_neq in Hg. unfold LookupGroup. rewrite Hg.
  unfold bind at 1, GetGroupMap, ext. rewrite Hf. simpl.
  rewrite (assoc_map_keys_in (fun g0 => queues_of g0 (m_groups (s_meta (w_store w))))) by (now apply nub_in).
  unfold queues_of. unfold bind at 1.
  destruct (lookupgroup_queues_exact g (filter (fun c => String.eqb (gc_Group c) g)
              (m_groups (s_meta (w_store w)))) []
              (mkWorld (w_store w) (w_faulty w) (w_trace w ++ [CGetGroupMap])))
    as [w' [E [Hs Hf']]]; simpl; auto.
  - intros c Hc. apply filter_In in Hc as [Hin' Hc]. apply String.eqb_eq in Hc. auto.
  - rewrite E. reflexivity.
Qed.

Lemma lookupgroup_exact_witness :
  fst (LookupGroup "g1" two_queues_world) =
    Ok [mkGroupInfo "g1" [lookupgroup_config (cfg "g1" "q1")]].
Proof.
  apply (lookupgroup_exact "g1" two_queues_world); [discriminate | reflexivity | | simpl; auto].
  unfold keys_unique. simpl. repeat constructor; simpl; intuition discriminate.
Defined.

End Wqs.
